(** * han.meter_connection: back-off policy, stream protocol and connection manager

    A shallow embedding of [src/han/meter_connection.py], and of the
    argument check and the point list of [src/reader_async.py].

    Conventions of the embedding.
    - Python's unbounded [int] is [Z]; [bytes] is a list of bytes.
    - Objects that the module mutates are records passed explicitly from
      call to call; objects shared by reference (the reader candidates)
      live in a store indexed by reference.
    - Calls that the module makes on its collaborators (readers, the
      transport, the done future, the back-off policy, the destination
      queue) are recorded, in order, in a ghost call log, so that
      statements such as "is called exactly once" can be written down.
    - [_LOGGER] calls have no effect on any state modelled here and are
      left out. *)

From Stdlib Require Import ZArith Lia Bool Ascii.
From stdpp Require Import gmap strings list fin_maps functions pretty.

Local Open Scope Z_scope.

(** ** Exceptions

    [Exception] stands for the instances of Python's [Exception] class that
    the module raises or that a collaborator raises into it.
    [BaseException] adds [asyncio.CancelledError], which (Python 3.8 and
    later) derives from [BaseException] directly and is therefore not
    caught by [except Exception]. Only awaited calls can raise it. *)

Inductive Exception : Type :=
| ValueError (msg : string)
| InvalidStateError
| OSError (msg : string).

Inductive BaseException : Type :=
| CancelledError
| Exc (e : Exception).

(** Outcome of a call: the raised exception or the returned value. *)
Definition result (E A : Type) : Type := (E + A)%type.

(** ** BackOffStrategy and ExponentialBackOff *)

Definition DEFAULT_MAX_DELAY_SEC : Z := 60.

(** The abstract base class: three operations on a policy object. *)
Class BackOffStrategy (B : Type) : Type := {
  failure : B -> B;
  reset : B -> B;
  current_delay_sec : B -> Z
}.

Record ExponentialBackOff : Type := {
  _delay : Z;
  max_delay : Z
}.

(** [ExponentialBackOff.__init__] *)
Definition ExponentialBackOff_init : ExponentialBackOff :=
  {| _delay := 0; max_delay := DEFAULT_MAX_DELAY_SEC |}.

(** [ExponentialBackOff.failure]: double, then replace a zero by one. *)
Definition exp_failure (b : ExponentialBackOff) : ExponentialBackOff :=
  let d := _delay b * 2 in
  {| _delay := if d =? 0 then 1 else d; max_delay := max_delay b |}.

(** [ExponentialBackOff.reset] *)
Definition exp_reset (b : ExponentialBackOff) : ExponentialBackOff :=
  {| _delay := 0; max_delay := max_delay b |}.

(** [ExponentialBackOff.current_delay_sec] (a property) *)
Definition exp_current_delay_sec (b : ExponentialBackOff) : Z :=
  if _delay b <? max_delay b then _delay b else max_delay b.

#[export] Instance ExponentialBackOff_strategy : BackOffStrategy ExponentialBackOff := {
  failure := exp_failure;
  reset := exp_reset;
  current_delay_sec := exp_current_delay_sec
}.

(** [n] consecutive [failure()] calls. *)
Definition failures (n : nat) (b : ExponentialBackOff) : ExponentialBackOff :=
  Nat.iter n failure b.

(** ** Messages, readers, transports (the interfaces of [han.common] and asyncio)

    These classes are imported, not defined, by the module. They are
    modelled by what the module uses of them. Instances of all of them are
    plain objects, so the truth tests [if self._selected_reader] and
    [if self._transport] are tests against [None]. *)

Definition bytes : Type := list Byte.byte.

(** [MeterMessageBase]: the three properties the module reads. *)
Record MeterMessageBase : Type := {
  is_valid : bool;
  payload : option bytes;
  as_bytes : option bytes
}.

(** [MeterReaderBase]: [read(data)] returns the messages completed by
    [data] and updates the reader's own buffer. *)
Class MeterReaderBase (R : Type) : Type := {
  read : R -> bytes -> list MeterMessageBase * R
}.

(** A transport, seen through [close()]: [close_raises] is the exception
    that the call raises, if it raises one. *)
Record BaseTransport : Type := {
  transport_name : string;
  close_raises : option Exception
}.

(** [asyncio.Future]: [set_result] is allowed on a pending future only. *)
Inductive Future : Type := Pending | Finished | Cancelled.

Definition set_result (f : Future) : result Exception Future :=
  match f with
  | Pending => inr Finished
  | Finished | Cancelled => inl InvalidStateError
  end.

(** [asyncio.Queue.put_nowait] on the destination queue. The queue is
    seen as the sequence of items handed to it, oldest first; the queues
    that the package's callers create are unbounded ([Queue()]), so the call
    always accepts the item. *)
Definition put_nowait {A : Type} (item : A) (queue : list A) : list A :=
  queue ++ [item].

(** Ghost call log of the protocol: calls made on collaborators, in order. *)
Inductive call : Type :=
| ReaderRead (reader : nat) (data : bytes) (returned : list MeterMessageBase)
| MessageReceived (message : MeterMessageBase)
| TransportClose (transport : BaseTransport)
| DoneSetResult.

(** ** SmartMeterBaseProtocol *)

Record SmartMeterBaseProtocol : Type := {
  _done : Future;
  instance_id : nat;
  _reader_candidates : list nat;       (* references into the reader store *)
  _selected_reader : option nat;
  _transport : option BaseTransport;
  _transport_info : option string
}.

(** [SmartMeterBaseProtocol.__init__]; [total_instance_counter] is the
    class-level counter, passed in and returned incremented. *)
Definition SmartMeterBaseProtocol_init (reader_candidates : list nat)
    (total_instance_counter : nat) : SmartMeterBaseProtocol * nat :=
  ({| _done := Pending;
      instance_id := total_instance_counter;
      _reader_candidates := reader_candidates;
      _selected_reader := None;
      _transport := None;
      _transport_info := None |},
   S total_instance_counter).

(** The two assignments made when a candidate wins:
    [self._selected_reader = reader; self._reader_candidates.clear()]. *)
Definition select_reader (reader : nat) (p : SmartMeterBaseProtocol)
  : SmartMeterBaseProtocol :=
  {| _done := _done p;
     instance_id := instance_id p;
     _reader_candidates := [];
     _selected_reader := Some reader;
     _transport := _transport p;
     _transport_info := _transport_info p |}.

Definition set_transport (t : option BaseTransport) (p : SmartMeterBaseProtocol)
  : SmartMeterBaseProtocol :=
  {| _done := _done p;
     instance_id := instance_id p;
     _reader_candidates := _reader_candidates p;
     _selected_reader := _selected_reader p;
     _transport := t;
     _transport_info := _transport_info p |}.

Definition set_done (f : Future) (p : SmartMeterBaseProtocol)
  : SmartMeterBaseProtocol :=
  {| _done := f;
     instance_id := instance_id p;
     _reader_candidates := _reader_candidates p;
     _selected_reader := _selected_reader p;
     _transport := _transport p;
     _transport_info := _transport_info p |}.

(** [connection_lost(exc)]. The argument only selects a log message. The
    result is the exception that leaves the method, if any. *)
Definition connection_lost (exc : option Exception)
    (st : SmartMeterBaseProtocol * list call)
  : (SmartMeterBaseProtocol * list call) * result Exception unit :=
  let '(p, log) := st in
  let '(p1, log1) :=
    match _transport p with
    | Some transport =>
        match close_raises transport with
        | None => (set_transport None p, log ++ [TransportClose transport])
        | Some ex => (p, log ++ [TransportClose transport])
        end
    | None => (p, log)
    end in
  match set_result (_done p1) with
  | inr f => ((set_done f p1, log1 ++ [DoneSetResult]), inr tt)
  | inl e => ((p1, log1 ++ [DoneSetResult]), inl e)
  end.

(** [eof_received]: always [False], which asks for the transport to be closed. *)
Definition eof_received (p : SmartMeterBaseProtocol) : bool := false.

Section DataReceived.

Context {R : Type} `{!MeterReaderBase R}.
(** The destination queue holds items of type [A]. *)
Context {A : Type}.
(** The abstract method [message_received], as an action on the queue. *)
Variable message_received : MeterMessageBase -> list A -> list A.

(** What surrounds a protocol instance: the reader objects it refers to,
    its destination queue, and the ghost call log. *)
Record World : Type := {
  readers : nat -> R;
  queue : list A;
  calls : list call
}.

(** [reader.read(data)] on the reader object behind a reference. *)
Definition call_read (reader : nat) (data : bytes) (w : World)
  : list MeterMessageBase * World :=
  let '(messages, r') := read (readers w reader) data in
  (messages,
   {| readers := <[reader := r']> (readers w);
      queue := queue w;
      calls := calls w ++ [ReaderRead reader data messages] |}).

(** [self.message_received(msg)] *)
Definition call_message_received (w : World) (msg : MeterMessageBase) : World :=
  {| readers := readers w;
     queue := message_received msg (queue w);
     calls := calls w ++ [MessageReceived msg] |}.

(** [for msg in messages: self.message_received(msg)] *)
Definition forward (messages : list MeterMessageBase) (w : World) : World :=
  fold_left call_message_received messages w.

(** The inner loop of the probing branch:
    [for msg in messages: if msg.is_valid: <select>; break]. *)
Fixpoint select_if_valid (reader : nat) (messages : list MeterMessageBase)
    (p : SmartMeterBaseProtocol) : SmartMeterBaseProtocol :=
  match messages with
  | [] => p
  | msg :: rest =>
      if is_valid msg then select_reader reader p
      else select_if_valid reader rest p
  end.

(** The outer loop of the probing branch, over the candidates still to
    be visited. *)
Fixpoint probe (candidates : list nat) (data : bytes)
    (p : SmartMeterBaseProtocol) (w : World) : SmartMeterBaseProtocol * World :=
  match candidates with
  | [] => (p, w)
  | reader :: rest =>
      let '(messages, w1) := call_read reader data w in
      let p1 := select_if_valid reader messages p in
      match _selected_reader p1 with
      | Some _ => (p1, forward messages w1)
      | None => probe rest data p1 w1
      end
  end.

(** [data_received(data)] *)
Definition data_received (data : bytes)
    (st : SmartMeterBaseProtocol * World) : SmartMeterBaseProtocol * World :=
  let '(p, w) := st in
  match _selected_reader p with
  | Some reader =>
      let '(messages, w1) := call_read reader data w in
      (p, forward messages w1)
  | None => probe (_reader_candidates p) data p w
  end.

(** Successive chunks delivered by the transport. *)
Definition data_received_all (chunks : list bytes)
    (st : SmartMeterBaseProtocol * World) : SmartMeterBaseProtocol * World :=
  fold_left (fun st data => data_received data st) chunks st.

End DataReceived.

Arguments World : clear implicits.

(** ** The two concrete protocols *)

Module SmartMeterMessageProtocol.

(** [SmartMeterMessageProtocol.message_received] *)
Definition message_received (message : MeterMessageBase)
    (queue : list MeterMessageBase) : list MeterMessageBase :=
  put_nowait message queue.

End SmartMeterMessageProtocol.

Module SmartMeterMessagePayloadProtocol.

(** [SmartMeterMessagePayloadProtocol.message_received] *)
Definition message_received (message : MeterMessageBase)
    (queue : list bytes) : list bytes :=
  let payload := payload message in
  if is_valid message then
    match payload with
    | Some bs =>
        if 0 <? Z.of_nat (length bs) then put_nowait bs queue else queue
    | None => queue
    end
  else queue.

End SmartMeterMessagePayloadProtocol.

(** ** ConnectionManager *)

(** A connection factory, seen through [asyncio.iscoroutinefunction]; what
    awaiting it yields is supplied by the environment of [_try_connect]. *)
Record AsyncConnectionFactory : Type := {
  iscoroutinefunction : bool
}.

Definition MeterTransportProtocol : Type :=
  (BaseTransport * SmartMeterBaseProtocol)%type.

(** [datetime.datetime] values are counted in microseconds, the resolution
    of the class. *)
Definition datetime : Type := Z.

Definition DEFAULT_CONNECTION_LOST_BACK_OFF_THRESHOLD : Z := 5.
Definition DEFAULT_CONNECTION_LOST_BACK_OFF_SLEEP_SEC : Z := 5.

(** *** Construction

    [__init__] runs on a new object whose attribute dictionary is empty.
    The dictionary is kept as a finite map from attribute names to values,
    so that the attributes that have been assigned can be told apart from
    those that have not. *)

Inductive attribute : Type :=
| AFactory (f : AsyncConnectionFactory)
| AConnection (c : option MeterTransportProtocol)
| AEvent (is_set : bool)
| ABackOff (b : ExponentialBackOff)
| AInt (z : Z)
| ADatetime (t : option datetime)
| ABool (b : bool).

(** [ConnectionManager.__init__(self, connection_factory)] *)
Definition __init__ (connection_factory : AsyncConnectionFactory)
    (self : gmap string attribute)
  : gmap string attribute * result Exception unit :=
  if negb (iscoroutinefunction connection_factory) then
    (self, inl (ValueError "Factory must be awaitable."))
  else
    let self := <["_connection_factory" := AFactory connection_factory]> self in
    let self := <["_connection" := AConnection None]> self in
    let self := <["_is_closing" := AEvent false]> self in
    let self := <["back_off_connect_error" := ABackOff ExponentialBackOff_init]> self in
    let self := <["connection_lost_back_off_threshold" :=
                    AInt DEFAULT_CONNECTION_LOST_BACK_OFF_SLEEP_SEC]> self in
    let self := <["connection_lost_back_off_sleep_sec" :=
                    AInt DEFAULT_CONNECTION_LOST_BACK_OFF_SLEEP_SEC]> self in
    let self := <["_connection_lost_last_time" := ADatetime None]> self in
    let self := <["_connection_lost_sleep_before_reconnect" := ABool false]> self in
    (self, inr tt).

(** A fully initialized manager, as the methods below use it. The
    [asyncio.Event] [_is_closing] is its flag. *)
Record ConnectionManager : Type := {
  _connection_factory : AsyncConnectionFactory;
  _connection : option MeterTransportProtocol;
  _is_closing : bool;
  back_off_connect_error : ExponentialBackOff;
  connection_lost_back_off_threshold : Z;
  connection_lost_back_off_sleep_sec : Z;
  _connection_lost_last_time : option datetime;
  _connection_lost_sleep_before_reconnect : bool
}.

(** Reading a manager off an attribute dictionary; [None] unless every
    attribute is present with a value of its kind. *)
Definition manager_of_attributes (self : gmap string attribute)
  : option ConnectionManager :=
  match self !! "_connection_factory", self !! "_connection",
        self !! "_is_closing", self !! "back_off_connect_error",
        self !! "connection_lost_back_off_threshold",
        self !! "connection_lost_back_off_sleep_sec",
        self !! "_connection_lost_last_time",
        self !! "_connection_lost_sleep_before_reconnect" with
  | Some (AFactory f), Some (AConnection c), Some (AEvent e), Some (ABackOff b),
    Some (AInt th), Some (AInt sl), Some (ADatetime t), Some (ABool s) =>
      Some {| _connection_factory := f;
              _connection := c;
              _is_closing := e;
              back_off_connect_error := b;
              connection_lost_back_off_threshold := th;
              connection_lost_back_off_sleep_sec := sl;
              _connection_lost_last_time := t;
              _connection_lost_sleep_before_reconnect := s |}
  | _, _, _, _, _, _, _, _ => None
  end.

(** [ConnectionManager(connection_factory)]: the exception raised by
    [__init__], or the manager it initialized. *)
Definition ConnectionManager_new (connection_factory : AsyncConnectionFactory)
  : result Exception (option ConnectionManager) :=
  match __init__ connection_factory ∅ with
  | (_, inl e) => inl e
  | (self, inr _) => inr (manager_of_attributes self)
  end.

(** *** Attribute assignments *)

Definition set_connection (c : option MeterTransportProtocol)
    (m : ConnectionManager) : ConnectionManager :=
  {| _connection_factory := _connection_factory m;
     _connection := c;
     _is_closing := _is_closing m;
     back_off_connect_error := back_off_connect_error m;
     connection_lost_back_off_threshold := connection_lost_back_off_threshold m;
     connection_lost_back_off_sleep_sec := connection_lost_back_off_sleep_sec m;
     _connection_lost_last_time := _connection_lost_last_time m;
     _connection_lost_sleep_before_reconnect :=
       _connection_lost_sleep_before_reconnect m |}.

Definition set_is_closing (e : bool) (m : ConnectionManager) : ConnectionManager :=
  {| _connection_factory := _connection_factory m;
     _connection := _connection m;
     _is_closing := e;
     back_off_connect_error := back_off_connect_error m;
     connection_lost_back_off_threshold := connection_lost_back_off_threshold m;
     connection_lost_back_off_sleep_sec := connection_lost_back_off_sleep_sec m;
     _connection_lost_last_time := _connection_lost_last_time m;
     _connection_lost_sleep_before_reconnect :=
       _connection_lost_sleep_before_reconnect m |}.

Definition set_back_off (b : ExponentialBackOff) (m : ConnectionManager)
  : ConnectionManager :=
  {| _connection_factory := _connection_factory m;
     _connection := _connection m;
     _is_closing := _is_closing m;
     back_off_connect_error := b;
     connection_lost_back_off_threshold := connection_lost_back_off_threshold m;
     connection_lost_back_off_sleep_sec := connection_lost_back_off_sleep_sec m;
     _connection_lost_last_time := _connection_lost_last_time m;
     _connection_lost_sleep_before_reconnect :=
       _connection_lost_sleep_before_reconnect m |}.

Definition set_circuit_breaker (last : option datetime) (recent : bool)
    (m : ConnectionManager) : ConnectionManager :=
  {| _connection_factory := _connection_factory m;
     _connection := _connection m;
     _is_closing := _is_closing m;
     back_off_connect_error := back_off_connect_error m;
     connection_lost_back_off_threshold := connection_lost_back_off_threshold m;
     connection_lost_back_off_sleep_sec := connection_lost_back_off_sleep_sec m;
     _connection_lost_last_time := last;
     _connection_lost_sleep_before_reconnect := recent |}.

(** *** Circuit breaker and back-off time *)

Definition MICROSECONDS_PER_SECOND : Z := 1000000.

(** [_update_connection_lost_circuit_breaker], with the value of
    [datetime.utcnow()] as argument. [delta.total_seconds() < threshold] is
    the comparison of the difference, a whole number of microseconds, with
    the threshold, a whole number of seconds; it is made here on the
    integers (the quotient that Python forms decides it the same way for
    any threshold below 10^9 seconds). *)
Definition _update_connection_lost_circuit_breaker (now : datetime)
    (m : ConnectionManager) : ConnectionManager :=
  let recent :=
    match _connection_lost_last_time m with
    | Some last =>
        let delta := now - last in
        delta <? connection_lost_back_off_threshold m * MICROSECONDS_PER_SECOND
    | None => _connection_lost_sleep_before_reconnect m
    end in
  set_circuit_breaker (Some now) recent m.

(** [_get_back_off_time] *)
Definition _get_back_off_time (m : ConnectionManager) : Z :=
  let sleep_time := 0 in
  let current_connect_error_delay := current_delay_sec (back_off_connect_error m) in
  if (0 <? current_connect_error_delay) || _connection_lost_sleep_before_reconnect m
  then
    let reconnect_sleep :=
      if _connection_lost_sleep_before_reconnect m
      then connection_lost_back_off_sleep_sec m
      else 0 in
    Z.max current_connect_error_delay reconnect_sleep
  else sleep_time.

(** *** close and _try_connect *)

(** Ghost call log of the manager. *)
Inductive manager_call : Type :=
| BackOffFailure
| BackOffReset
| Sleep (seconds : Z)
| FactoryCall
| ConnectionTransportClose (transport : BaseTransport).

Definition manager_state : Type := (ConnectionManager * list manager_call)%type.

(** [close()] *)
Definition close (st : manager_state) : manager_state * result Exception unit :=
  let '(m, log) := st in
  let m := set_is_closing true m in
  match _connection m with
  | Some (transport, _) =>
      let log := log ++ [ConnectionTransportClose transport] in
      match close_raises transport with
      | None => ((set_connection None m, log), inr tt)
      | Some ex => ((m, log), inl ex)
      end
  | None => ((m, log), inr tt)
  end.

(** What other code does to the manager while a coroutine of the manager
    is suspended: a [close()] call (made by a signal handler; an exception
    of that call goes to that caller), and [connect_loop] leaving its loop,
    which clears the closing flag (line 372). *)
Inductive interference : Type :=
| close_called
| loop_left.

Definition interfere (st : manager_state) (i : interference) : manager_state :=
  match i with
  | close_called => fst (close st)
  | loop_left => (set_is_closing false (fst st), snd st)
  end.

Definition interfered (during : list interference) (st : manager_state)
  : manager_state :=
  fold_left interfere during st.

(** What happens around one [_try_connect] call, at its two suspension
    points: whether the sleep is cancelled, what the awaited factory
    yields, and what other code does to the manager while the coroutine is
    suspended there. *)
Record connect_environment : Type := {
  sleep_cancelled : bool;
  during_sleep : list interference;
  factory_outcome : result BaseException MeterTransportProtocol;
  during_connect : list interference
}.

(** The end of [_try_connect]: the [try] statement from the point where
    the awaited factory call is over, on the manager as it is then. *)
Definition connect_finished
    (outcome : result BaseException MeterTransportProtocol) (st : manager_state)
  : manager_state * result BaseException unit :=
  let '(m2, log2) := st in
  match outcome with
  | inr connection =>
      let m3 := set_connection (Some connection) m2 in
      ((set_back_off (reset (back_off_connect_error m3)) m3,
        log2 ++ [BackOffReset]), inr tt)
  | inl CancelledError => ((m2, log2), inl CancelledError)
  | inl (Exc ex) =>
      let m3 := set_connection None m2 in
      ((set_back_off (failure (back_off_connect_error m3)) m3,
        log2 ++ [BackOffFailure]), inr tt)
  end.

(** [_try_connect] *)
Definition _try_connect (env : connect_environment) (st : manager_state)
  : manager_state * result BaseException unit :=
  let '(m, log) := st in
  let sleep_time := _get_back_off_time m in
  let slept : manager_state * result BaseException unit :=
    if 0 <? sleep_time then
      let st1 := interfered (during_sleep env) (m, log ++ [Sleep sleep_time]) in
      if sleep_cancelled env then (st1, inl CancelledError) else (st1, inr tt)
    else ((m, log), inr tt) in
  match slept with
  | (st1, inl e) => (st1, inl e)
  | ((m1, log1), inr _) =>
      if negb (_is_closing m1) then
        connect_finished (factory_outcome env)
          (interfered (during_connect env) (m1, log1 ++ [FactoryCall]))
      else ((m1, log1), inr tt)
  end.


(** *** connect_loop

    [asyncio.wait(..., return_when=FIRST_COMPLETED)] wraps each coroutine
    in a task (Python up to 3.10; later versions refuse coroutines) and
    returns as soon as one of them is done; it cancels nothing, the others
    stay scheduled. [connect_loop] drops the sets that [wait] returns, so a
    [_try_connect] task that loses the race against [_is_closing.wait()]
    stays pending at its suspension point: *)
Inductive pending_attempt : Type :=
| asleep
| connecting.

(** [_try_connect] up to its first suspension ([None]: it ends without
    being suspended). *)
Definition try_connect_start (st : manager_state)
  : manager_state * option pending_attempt :=
  let '(m, log) := st in
  let sleep_time := _get_back_off_time m in
  if 0 <? sleep_time then ((m, log ++ [Sleep sleep_time]), Some asleep)
  else if negb (_is_closing m) then ((m, log ++ [FactoryCall]), Some connecting)
  else ((m, log), None).

(** The rest of [_try_connect] from a suspension point, on the manager as
    it is when the coroutine is resumed. *)
Definition try_connect_resume (p : pending_attempt) (env : connect_environment)
    (st : manager_state) : manager_state * result BaseException unit :=
  match p with
  | asleep =>
      if sleep_cancelled env then (st, inl CancelledError)
      else if negb (_is_closing (fst st)) then
        connect_finished (factory_outcome env)
          (interfered (during_connect env) (fst st, snd st ++ [FactoryCall]))
      else (st, inr tt)
  | connecting => connect_finished (factory_outcome env) st
  end.





(** ** Vocabulary of the statements about [data_received] *)

(** Some message of the list reports [is_valid]. *)
Definition has_valid (messages : list MeterMessageBase) : bool :=
  existsb is_valid messages.

(** The [read] calls that feed [data] to each reader of [fed] in turn,
    with what each call returned. *)
Definition reads (data : bytes) (fed : list nat)
    (returns : list (list MeterMessageBase)) : list call :=
  zip_with (fun reader messages => ReaderRead reader data messages) fed returns.

(** The calls of a committed protocol: each chunk is read by [reader] and
    every returned message is handed to [message_received]. *)
Definition routed (reader : nat) (chunks : list bytes)
    (returns : list (list MeterMessageBase)) : list call :=
  concat (zip_with
            (fun data messages =>
               ReaderRead reader data messages :: map MessageReceived messages)
            chunks returns).

(** What [read] returns when the chunks are given one after the other to
    one reader object that starts as [r], with the reader as it is after
    the last of them. *)
Fixpoint reader_run {R : Type} `{!MeterReaderBase R} (r : R) (chunks : list bytes)
  : list (list MeterMessageBase) * R :=
  match chunks with
  | [] => ([], r)
  | data :: rest =>
      let result := read r data in
      let others := reader_run (snd result) rest in
      (fst result :: fst others, snd others)
  end.

(** What [read] returns when [data] is given to the readers behind the
    references [fed], one after the other, with the reader objects as they
    are afterwards. *)
Fixpoint feed {R : Type} `{!MeterReaderBase R} (fed : list nat) (data : bytes)
    (heap : nat -> R) : list (list MeterMessageBase) * (nat -> R) :=
  match fed with
  | [] => ([], heap)
  | reader :: rest =>
      let result := read (heap reader) data in
      let others := feed rest data (<[reader := snd result]> heap) in
      (fst result :: fst others, snd others)
  end.


Section ProbingResult.

Context {R A : Type}.
Variable message_received : MeterMessageBase -> list A -> list A.

(** The queue after [message_received] has handled [messages] in order. *)
Definition delivered (messages : list MeterMessageBase) (q : list A) : list A :=
  fold_left (fun q msg => message_received msg q) messages q.

(** The two ways a probing pass over [candidates] can end.
    - [probing_continues]: every candidate was fed the chunk, none
      returned a valid message, the protocol is unchanged.
    - [probing_commits]: the candidates before [reader] were fed and
      returned no valid message, [reader] was fed and returned
      [messages], one of them valid; [reader] is selected, the candidate
      list is emptied, all of [messages] are handed on, and the
      candidates after [reader] are not fed. *)
Inductive probing_result (data : bytes) (candidates : list nat)
    (p : SmartMeterBaseProtocol) (w : World R A)
    (p' : SmartMeterBaseProtocol) (w' : World R A) : Prop :=
| probing_continues (returns : list (list MeterMessageBase)) :
    length returns = length candidates ->
    Forall (fun ms => has_valid ms = false) returns ->
    p' = p ->
    calls w' = calls w ++ reads data candidates returns ->
    queue w' = queue w ->
    probing_result data candidates p w p' w'
| probing_commits (before after : list nat) (reader : nat)
    (returns : list (list MeterMessageBase)) (messages : list MeterMessageBase) :
    candidates = before ++ reader :: after ->
    length returns = length before ->
    Forall (fun ms => has_valid ms = false) returns ->
    has_valid messages = true ->
    p' = select_reader reader p ->
    calls w' = calls w ++ reads data before returns
                 ++ ReaderRead reader data messages
                 :: map MessageReceived messages ->
    queue w' = delivered messages (queue w) ->
    probing_result data candidates p w p' w'.

End ProbingResult.

(** ** A reader used in worked examples

    The readers of the package are outside this module. [DelimitedReader]
    is a small stand-in: frames end at a delimiter byte, a frame is valid
    when it is not empty, and bytes after the last delimiter are kept for
    the next call. *)

Record DelimitedReader : Type := {
  delimiter : Byte.byte;
  pending : bytes
}.

Definition frame_message (delim : Byte.byte) (frame : bytes) : MeterMessageBase :=
  {| is_valid := negb (Nat.eqb (length frame) 0);
     payload := Some frame;
     as_bytes := Some (frame ++ [delim]) |}.

Fixpoint split_frames (delim : Byte.byte) (partial : bytes) (data : bytes)
  : list bytes * bytes :=
  match data with
  | [] => ([], partial)
  | b :: rest =>
      if Byte.eqb b delim then
        let '(frames, remainder) := split_frames delim [] rest in
        (partial :: frames, remainder)
      else split_frames delim (partial ++ [b]) rest
  end.

#[export] Instance DelimitedReader_reader : MeterReaderBase DelimitedReader := {
  read r data :=
    let '(frames, remainder) := split_frames (delimiter r) (pending r) data in
    (map (frame_message (delimiter r)) frames,
     {| delimiter := delimiter r; pending := remainder |})
}.

(** Two candidates: reference 0 frames on byte 0x0a, reference 1 (and every
    other reference) on byte 0x7e. *)
Definition example_readers : nat -> DelimitedReader :=
  <[0%nat := {| delimiter := Byte.x0a; pending := [] |}]>
    (fun _ => {| delimiter := Byte.x7e; pending := [] |}).

Definition example_protocol : SmartMeterBaseProtocol :=
  fst (SmartMeterBaseProtocol_init [0%nat; 1%nat] 0).

Definition example_world {A : Type} : World DelimitedReader A :=
  {| readers := example_readers; queue := []; calls := [] |}.

(** A chunk holding an empty frame and then a one-byte frame for the
    first candidate; it has no delimiter of the second. *)
Definition example_chunk : bytes := [Byte.x0a; Byte.x41; Byte.x0a].

(** A chunk without any delimiter. *)
Definition example_junk : bytes := [Byte.x41; Byte.x42].

(** The message protocol receives a chunk while probing. *)
Definition after_junk : SmartMeterBaseProtocol * World DelimitedReader MeterMessageBase :=
  data_received SmartMeterMessageProtocol.message_received example_junk
    (example_protocol, example_world).

Definition after_chunk : SmartMeterBaseProtocol * World DelimitedReader MeterMessageBase :=
  data_received SmartMeterMessageProtocol.message_received example_chunk
    (example_protocol, example_world).

(** The payload protocol receives a chunk that commits it, then two more. *)
Definition payload_after_chunk : SmartMeterBaseProtocol * World DelimitedReader bytes :=
  data_received SmartMeterMessagePayloadProtocol.message_received example_chunk
    (example_protocol, example_world).

Definition payload_after_more : SmartMeterBaseProtocol * World DelimitedReader bytes :=
  data_received_all SmartMeterMessagePayloadProtocol.message_received
    [example_junk; example_chunk] payload_after_chunk.

(** A transport whose [close()] raises. *)
Definition example_broken_transport : BaseTransport :=
  {| transport_name := "/dev/ttyUSB0";
     close_raises := Some (OSError "device disconnected") |}.

Definition example_transport : BaseTransport :=
  {| transport_name := "/dev/ttyUSB0"; close_raises := None |}.

(** ** Vocabulary of the statements about the manager *)

(** The circuit-breaker flag is never set before a first disconnect has
    been recorded. *)
Definition circuit_breaker_consistent (m : ConnectionManager) : Prop :=
  _connection_lost_last_time m = None ->
  _connection_lost_sleep_before_reconnect m = false.

(** The manager that [__init__] leaves behind for a coroutine function. *)
Definition initial_manager (connection_factory : AsyncConnectionFactory)
  : ConnectionManager :=
  {| _connection_factory := connection_factory;
     _connection := None;
     _is_closing := false;
     back_off_connect_error := ExponentialBackOff_init;
     connection_lost_back_off_threshold := 5;
     connection_lost_back_off_sleep_sec := 5;
     _connection_lost_last_time := None;
     _connection_lost_sleep_before_reconnect := false |}.

Definition example_factory : AsyncConnectionFactory :=
  {| iscoroutinefunction := true |}.




(** Environments of a connect attempt: the factory raises; the sleep is
    cancelled; the factory is cancelled while [close()] arrives. *)
Definition example_refused : connect_environment :=
  {| sleep_cancelled := false;
     during_sleep := [];
     factory_outcome := inl (Exc (OSError "connection refused"));
     during_connect := [] |}.

Definition example_cancelled_sleep : connect_environment :=
  {| sleep_cancelled := true;
     during_sleep := [close_called];
     factory_outcome := inr (example_transport, example_protocol);
     during_connect := [] |}.


(** A manager after two failed connect attempts. *)
Definition example_manager : ConnectionManager :=
  set_back_off (failures 2 ExponentialBackOff_init) (initial_manager example_factory).

(** Assignment to the manager's public attributes by its owner. *)
Definition configure (threshold sleep_sec : Z) (back_off : ExponentialBackOff)
    (m : ConnectionManager) : ConnectionManager :=
  {| _connection_factory := _connection_factory m;
     _connection := _connection m;
     _is_closing := _is_closing m;
     back_off_connect_error := back_off;
     connection_lost_back_off_threshold := threshold;
     connection_lost_back_off_sleep_sec := sleep_sec;
     _connection_lost_last_time := _connection_lost_last_time m;
     _connection_lost_sleep_before_reconnect :=
       _connection_lost_sleep_before_reconnect m |}.

(** The managers that the module's operations produce from a constructed one. *)
Inductive reachable : ConnectionManager -> Prop :=
| reachable_init f :
    iscoroutinefunction f = true -> reachable (initial_manager f)
| reachable_configure threshold sleep_sec back_off m :
    reachable m -> reachable (configure threshold sleep_sec back_off m)
| reachable_close m log :
    reachable m -> reachable (fst (fst (close (m, log))))
| reachable_try_connect env m log :
    reachable m -> reachable (fst (fst (_try_connect env (m, log))))
| reachable_connection_lost now m :
    reachable m -> reachable (_update_connection_lost_circuit_breaker now m).

(** ** Further operations of the module *)

(** *** Sequences of back-off calls *)

Inductive back_off_call : Type := Failure | Reset.

Definition back_off_step (b : ExponentialBackOff) (c : back_off_call)
  : ExponentialBackOff :=
  match c with
  | Failure => failure b
  | Reset => reset b
  end.

(** The policy object after the calls of [cs], made in order. *)
Definition back_off_run (cs : list back_off_call) (b : ExponentialBackOff)
  : ExponentialBackOff :=
  fold_left back_off_step cs b.

(** What every policy object made by [ExponentialBackOff()] satisfies. *)
Definition back_off_invariant (b : ExponentialBackOff) : Prop :=
  max_delay b = 60 /\ (_delay b = 0 \/ exists k : nat, _delay b = 2 ^ Z.of_nat k).

(** *** connection_made and _set_transport_info

    What [_set_transport_info] asks of the transport object besides
    [close()]: whether it has a [serial] attribute (given by its [str]), and
    what [get_extra_info("peername")] returns (the items of the tuple,
    each as the text that the f-string prints for it). [transport_name]
    is [str(transport)]. *)
Record transport_attributes : Type := {
  serial : option string;
  peername : option (list string)
}.

Definition set_transport_info (info : option string) (p : SmartMeterBaseProtocol)
  : SmartMeterBaseProtocol :=
  {| _done := _done p;
     instance_id := instance_id p;
     _reader_candidates := _reader_candidates p;
     _selected_reader := _selected_reader p;
     _transport := _transport p;
     _transport_info := info |}.

(** Truth value of [self._transport_info]: [None] and the empty string are
    false. *)
Definition info_is_set (info : option string) : bool :=
  match info with
  | Some s => negb (String.eqb s "")
  | None => false
  end.

(** [_set_transport_info]. Unpacking [host, port, *_ = peer_name] raises
    [ValueError] on fewer than two items. *)
Definition _set_transport_info (attrs : transport_attributes)
    (p : SmartMeterBaseProtocol) : SmartMeterBaseProtocol * result Exception unit :=
  match _transport p with
  | Some transport =>
      let described : SmartMeterBaseProtocol * result Exception unit :=
        match serial attrs with
        | Some s => (set_transport_info (Some s) p, inr tt)
        | None =>
            match peername attrs with
            | Some (host :: port :: _) =>
                (set_transport_info
                   (Some ("host " +:+ host +:+ " and port " +:+ port)) p,
                 inr tt)
            | Some [_] =>
                (p, inl (ValueError "not enough values to unpack"))
            | Some [] | None => (p, inr tt)
            end
        end in
      match described with
      | (p1, inr _) =>
          if info_is_set (_transport_info p1) then (p1, inr tt)
          else (set_transport_info (Some (transport_name transport)) p1, inr tt)
      | (p1, inl e) => (p1, inl e)
      end
  | None => (p, inr tt)
  end.

(** [connection_made(transport)] *)
Definition connection_made (transport : BaseTransport) (attrs : transport_attributes)
    (p : SmartMeterBaseProtocol) : SmartMeterBaseProtocol * result Exception unit :=
  _set_transport_info attrs (set_transport (Some transport) p).

(** Protocol objects created one after the other, each with its own
    candidates, threading the class-level counter. *)
Fixpoint create_protocols (candidates : list (list nat)) (total_instance_counter : nat)
  : list SmartMeterBaseProtocol * nat :=
  match candidates with
  | [] => ([], total_instance_counter)
  | cs :: rest =>
      let '(p, counter) := SmartMeterBaseProtocol_init cs total_instance_counter in
      let '(ps, counter') := create_protocols rest counter in
      (p :: ps, counter')
  end.

(** *** Vocabulary for runs of [data_received] *)


(** The payloads that the payload protocol lets through. *)
Definition forwarded_payload (message : MeterMessageBase) : option bytes :=
  if is_valid message then
    match payload message with
    | Some (b :: bs) => Some (b :: bs)
    | Some [] | None => None
    end
  else None.

(** *** Successive connect attempts *)

(** [_try_connect] called once per environment of [envs], as the loop
    does while no attempt succeeds; the result is the exception of the
    first call that raises, if any. *)
Fixpoint connect_attempts (envs : list connect_environment) (st : manager_state)
  : manager_state * result BaseException unit :=
  match envs with
  | [] => (st, inr tt)
  | env :: rest =>
      match _try_connect env st with
      | (st1, inr _) => connect_attempts rest st1
      | (st1, inl e) => (st1, inl e)
      end
  end.

(** An attempt that runs undisturbed and whose factory raises an
    [Exception]. *)
Definition refused (env : connect_environment) : Prop :=
  sleep_cancelled env = false
  /\ during_sleep env = []
  /\ during_connect env = []
  /\ exists ex, factory_outcome env = inl (Exc ex).

(** The sleep before attempt number [k] (counted from 0) of a run of
    refused attempts with the default cap. *)
Definition retry_sleep (k : nat) : Z :=
  match k with
  | O => 0
  | S j => Z.min (2 ^ Z.of_nat j) 60
  end.

(** The calls of attempt number [k] of such a run. *)
Definition refused_calls (k : nat) : list manager_call :=
  match k with
  | O => [FactoryCall; BackOffFailure]
  | S _ => [Sleep (retry_sleep k); FactoryCall; BackOffFailure]
  end.

(** The disconnects at the times of [times], handled in order. *)
Definition disconnects (times : list datetime) (m : ConnectionManager)
  : ConnectionManager :=
  fold_left (fun m now => _update_connection_lost_circuit_breaker now m) times m.

(** Transports as the two connection factories of the package make them: a
    serial port, and a TCP socket. *)
Definition example_serial_attributes : transport_attributes :=
  {| serial := Some "Serial<id=0x1, open=True>(port='/dev/ttyUSB0')";
     peername := None |}.

Definition example_tcp_attributes : transport_attributes :=
  {| serial := None; peername := Some ["192.168.1.20"; "3001"] |}.

(** A transport whose peer name has a single item. *)
Definition example_short_peername : transport_attributes :=
  {| serial := None; peername := Some ["/run/meter.sock"] |}.

(** The calls that [data_received] can make. *)
Definition is_data_call (c : call) : bool :=
  match c with
  | ReaderRead _ _ _ | MessageReceived _ => true
  | TransportClose _ | DoneSetResult => false
  end.

(** The manager after [k] refused connect attempts in a row on a new
    manager. *)
Definition after_failures (k : nat) (f : AsyncConnectionFactory) : ConnectionManager :=
  set_back_off (failures k ExponentialBackOff_init) (initial_manager f).

(** A manager holding a connection whose transport cannot be closed. *)
Definition example_stuck_manager : ConnectionManager :=
  set_connection (Some (example_broken_transport, example_protocol))
    (initial_manager example_factory).

(** An attempt that succeeds although [close()] arrives while the factory
    is awaited; the loop, woken by that call, is left before the factory
    returns. *)
Definition example_late_close : connect_environment :=
  {| sleep_cancelled := false;
     during_sleep := [];
     factory_outcome := inr (example_transport, example_protocol);
     during_connect := [close_called; loop_left] |}.

(** ** reader_async: the host and port argument

    [str.split(sep)] for a one-character separator: the pieces between the
    occurrences of [sep], of which there is always at least one. *)
Fixpoint split (sep : Ascii.ascii) (s : string) : list string :=
  match s with
  | EmptyString => [EmptyString]
  | String c rest =>
      if Ascii.eqb c sep then EmptyString :: split sep rest
      else
        match split sep rest with
        | first :: others => String c first :: others
        | [] => [String c EmptyString]
        end
  end.

(** [sep in s] *)
Fixpoint contains (sep : Ascii.ascii) (s : string) : bool :=
  match s with
  | EmptyString => false
  | String c rest => Ascii.eqb c sep || contains sep rest
  end.

Definition colon : Ascii.ascii := ":"%char.

(** [argparse.ArgumentTypeError] *)
Inductive ArgumentTypeError : Type :=
| argument_type_error (msg : string).

(** [valid_host_port], the [type=] function of the [-host] argument. *)
Definition valid_host_port (host_port : string)
  : result ArgumentTypeError (string * string) :=
  let host_and_port := split colon host_port in
  match host_and_port with
  | [host; port] => inr (host, port)
  | _ =>
      let msg := "Not a valid host and port: '" +:+ host_port +:+ "'." in
      inl (argument_type_error msg)
  end.

(** ** reader_async: the points written for a decoded frame

    A decoded frame is a [dict] from field names to values of any kind,
    kept here as the list of its items in iteration order. The values are
    used through [str(v)] and [float(v)] only, the latter raising on a
    value that is no number; [utcnow_isoformat k] is what
    [datetime.utcnow().isoformat()] returns the [k]-th time it is called. *)

Section InfluxPoints.

Variables value float_value : Type.
Variable str : value -> string.
Variable float : value -> option float_value.
Variable utcnow_isoformat : nat -> string.

Definition ignore_fields : list string :=
  ["meter_datetime"; "meter_id"; "meter_type"; "meter_manufacturer"; "list_ver_id"].

Definition regular_fields : list string :=
  ["active_power_import"; "active_power_export"; "reactive_power_import";
   "reactive_power_export"; "current_l1"; "current_l2"; "current_l3";
   "voltage_l1"; "voltage_l2"; "voltage_l3"].

Definition hourly_fields : list string :=
  ["active_power_import_total"; "active_power_export_total";
   "reactive_power_import_total"; "reactive_power_export_total"].

(** [key in fields] *)
Definition key_in (key : string) (fields : list string) : bool :=
  existsb (String.eqb key) fields.

(** The keys for which the loop body builds a point. *)
Definition is_measured (key : string) : bool :=
  negb (key_in key ignore_fields)
  && (key_in key regular_fields || key_in key hourly_fields).

Inductive frame_error : Type :=
| KeyError (key : string)
| NotANumber (key : string).

(** [decoded_frame[key]] *)
Fixpoint getitem (key : string) (frame : list (string * value))
  : result frame_error value :=
  match frame with
  | [] => inl (KeyError key)
  | (k, v) :: rest => if String.eqb k key then inr v else getitem key rest
  end.

(** One element of [measurement_list]. *)
Record point : Type := {
  measurement : string;
  tag_meter_id : string;
  tag_meter_type : string;
  tag_meter_manufacturer : string;
  tag_list_ver_id : string;
  tag_measurement : string;
  time : string;
  field_value : float_value
}.

(** The dictionary built for [key], its entries evaluated in source order. *)
Definition build_point (frame : list (string * value)) (key : string)
    (clock : nat) : result frame_error point :=
  match getitem "meter_id" frame with
  | inl e => inl e
  | inr meter_id =>
  match getitem "meter_type" frame with
  | inl e => inl e
  | inr meter_type =>
  match getitem "meter_manufacturer" frame with
  | inl e => inl e
  | inr meter_manufacturer =>
  match getitem "list_ver_id" frame with
  | inl e => inl e
  | inr list_ver_id =>
  let now := utcnow_isoformat clock in
  match getitem key frame with
  | inl e => inl e
  | inr v =>
  match float v with
  | None => inl (NotANumber key)
  | Some x =>
      inr {| measurement := "elmatare";
             tag_meter_id := str meter_id;
             tag_meter_type := str meter_type;
             tag_meter_manufacturer := str meter_manufacturer;
             tag_list_ver_id := str list_ver_id;
             tag_measurement := key;
             time := now;
             field_value := x |}
  end end end end end end.

(** The loop over the keys of the frame; [measurement_list] is the list
    built so far, whose length is also the number of clock readings. *)
Fixpoint collect_points (frame : list (string * value)) (keys : list string)
    (measurement_list : list point) : result frame_error (list point) :=
  match keys with
  | [] => inr measurement_list
  | key :: rest =>
      if key_in key ignore_fields then collect_points frame rest measurement_list
      else if key_in key regular_fields || key_in key hourly_fields then
        match build_point frame key (length measurement_list) with
        | inl e => inl e
        | inr measurement_dick =>
            collect_points frame rest (measurement_list ++ [measurement_dick])
        end
      else collect_points frame rest measurement_list
  end.

(** [send_frame_to_inflxudb]: the exception raised while the list is
    built, or the list handed to [client.write_points]. *)
Definition send_frame_to_inflxudb (decoded_frame : list (string * value))
  : result frame_error (list point) :=
  collect_points decoded_frame (map fst decoded_frame) [].

End InfluxPoints.

Arguments getitem {value} key frame.
Arguments measurement {float_value} p.
Arguments tag_meter_id {float_value} p.
Arguments tag_meter_type {float_value} p.
Arguments tag_meter_manufacturer {float_value} p.
Arguments tag_list_ver_id {float_value} p.
Arguments tag_measurement {float_value} p.
Arguments time {float_value} p.
Arguments field_value {float_value} p.
Arguments build_point {value float_value} str float utcnow_isoformat frame key clock.
Arguments collect_points {value float_value} str float utcnow_isoformat
  frame keys measurement_list.
Arguments send_frame_to_inflxudb {value float_value} str float utcnow_isoformat
  decoded_frame.

(** The four tags copied from the frame into every point. *)
Definition tag_fields : list string :=
  ["meter_id"; "meter_type"; "meter_manufacturer"; "list_ver_id"].

(** What a point built for a frame at clock reading [clock] holds. *)
Definition point_of_frame {value float_value : Type} (str : value -> string)
    (float : value -> option float_value) (utcnow_isoformat : nat -> string)
    (frame : list (string * value)) (clock : nat) (pt : point float_value) : Prop :=
  measurement pt = "elmatare"
  /\ time pt = utcnow_isoformat clock
  /\ (exists v, getitem "meter_id" frame = inr v /\ tag_meter_id pt = str v)
  /\ (exists v, getitem "meter_type" frame = inr v /\ tag_meter_type pt = str v)
  /\ (exists v, getitem "meter_manufacturer" frame = inr v
                /\ tag_meter_manufacturer pt = str v)
  /\ (exists v, getitem "list_ver_id" frame = inr v /\ tag_list_ver_id pt = str v)
  /\ (exists v, getitem (tag_measurement pt) frame = inr v
                /\ float v = Some (field_value pt)).

(** A frame as a decoder may return it, with string and number values. *)
Inductive example_value : Type :=
| text (s : string)
| number (n : Z).

Definition example_str (v : example_value) : string :=
  match v with
  | text s => s
  | number n => pretty n
  end.

Definition example_float (v : example_value) : option Z :=
  match v with
  | text _ => None
  | number n => Some n
  end.

Definition example_frame : list (string * example_value) :=
  [("meter_id", text "7359992890941742");
   ("meter_type", text "MA304H3E");
   ("meter_manufacturer", text "Aidon");
   ("list_ver_id", text "AIDON_V0001");
   ("meter_datetime", text "2021-03-05T11:00:00");
   ("active_power_import", number 1843);
   ("voltage_l1", number 231);
   ("crc", number 0)].

(** Only a measurement, as in the shortest list of some meters. *)
Definition example_short_frame : list (string * example_value) :=
  [("active_power_import", number 1843)].

(** An attempt during whose sleep [close()] is called and the loop, woken
    by that call, is left. *)
Definition example_closed_asleep : connect_environment :=
  {| sleep_cancelled := false;
     during_sleep := [close_called; loop_left];
     factory_outcome := inr (example_transport, example_protocol);
     during_connect := [] |}.

(** ** Vocabulary for interference and for [connect_loop] *)

Definition is_transport_close (c : manager_call) : bool :=
  match c with ConnectionTransportClose _ => true | _ => false end.

(** The closing flag after other code has run. *)
Definition flag_after (during : list interference) (closing : bool) : bool :=
  fold_left (fun b i => match i with close_called => true | loop_left => false end)
    during closing.



(** Membership of a call in an explicit log. *)
Ltac absent_from_log :=
  let H := fresh "Hin" in
  intros H;
  repeat (apply elem_of_cons in H as [H|H]; [discriminate H|]);
  by apply elem_of_nil in H.



(** ** Properties of the back-off policy *)

Section BackOffFacts.

Lemma failure_max_delay b : max_delay (failure b) = max_delay b.
Proof. reflexivity. Qed.

Lemma failures_max_delay n b : max_delay (failures n b) = max_delay b.
Proof.
  induction n as [|n IH]; [reflexivity|].
  unfold failures in *. rewrite Nat.iter_succ. rewrite failure_max_delay. exact IH.
Qed.

Lemma failure_delay_zero b : _delay b = 0 -> _delay (failure b) = 1.
Proof. intros H. cbn. rewrite H. reflexivity. Qed.

Lemma failure_delay_pos b : 0 < _delay b -> _delay (failure b) = 2 * _delay b.
Proof.
  intros H. cbn. destruct (Z.eqb_spec (_delay b * 2) 0); lia.
Qed.

(** The stored delay after [S n] failures from a zero delay is [2^n]. *)
Lemma failures_delay n b :
  _delay b = 0 -> _delay (failures (S n) b) = 2 ^ Z.of_nat n.
Proof.
  intros H0. induction n as [|n IH].
  - cbn. rewrite H0. reflexivity.
  - change (failures (S (S n)) b) with (failure (failures (S n) b)).
    rewrite failure_delay_pos; rewrite IH.
    + rewrite Nat2Z.inj_succ, Z.pow_succ_r by lia. reflexivity.
    + apply Z.pow_pos_nonneg; lia.
Qed.

Lemma current_delay_sec_min b :
  current_delay_sec b = Z.min (_delay b) (max_delay b).
Proof.
  cbn. unfold exp_current_delay_sec.
  destruct (Z.ltb_spec (_delay b) (max_delay b)); lia.
Qed.

End BackOffFacts.

(** C3. Starting from a zero stored delay (the initial state, or the state
    after [reset()]), [n >= 1] consecutive [failure()] calls make
    [current_delay_sec] equal to [min(2^(n-1), max_delay)]; [max_delay] is 60
    by default; and [reset()] brings [current_delay_sec] back to 0. *)
Theorem exponential_back_off_delay (b : ExponentialBackOff) (n : nat)
    (Hn : (1 <= n)%nat) (Hcap : 0 <= max_delay b) :
  max_delay ExponentialBackOff_init = 60
  /\ current_delay_sec (failures n ExponentialBackOff_init)
     = Z.min (2 ^ (Z.of_nat n - 1)) 60
  /\ current_delay_sec (failures n (reset b))
     = Z.min (2 ^ (Z.of_nat n - 1)) (max_delay b)
  /\ current_delay_sec (reset (failures n (reset b))) = 0
  /\ current_delay_sec (reset (failures n ExponentialBackOff_init)) = 0.
Proof.
  destruct n as [|k]; [lia|].
  replace (Z.of_nat (S k) - 1) with (Z.of_nat k) by lia.
  split; [reflexivity|].
  split.
  { rewrite current_delay_sec_min, failures_delay by reflexivity.
    rewrite failures_max_delay. reflexivity. }
  split.
  { rewrite current_delay_sec_min, failures_delay by reflexivity.
    rewrite failures_max_delay. reflexivity. }
  split.
  - rewrite current_delay_sec_min. cbn [reset ExponentialBackOff_strategy exp_reset _delay max_delay].
    rewrite failures_max_delay. cbn. lia.
  - rewrite current_delay_sec_min. cbn [reset ExponentialBackOff_strategy exp_reset _delay max_delay].
    rewrite failures_max_delay. reflexivity.
Qed.

Lemma exponential_back_off_delay_witness :
  current_delay_sec (failures 7 ExponentialBackOff_init) = 60
  /\ current_delay_sec (failures 4 (reset (failures 9 ExponentialBackOff_init))) = 8
  /\ current_delay_sec (reset (failures 7 ExponentialBackOff_init)) = 0.
Proof.
  assert (H1 : (1 <= 7)%nat) by lia.
  assert (H2 : (1 <= 4)%nat) by lia.
  assert (C1 : 0 <= max_delay ExponentialBackOff_init) by (vm_compute; discriminate).
  assert (C2 : 0 <= max_delay (failures 9 ExponentialBackOff_init)) by (vm_compute; discriminate).
  destruct (exponential_back_off_delay ExponentialBackOff_init 7 H1 C1)
    as (_ & H7 & _ & _ & R7).
  destruct (exponential_back_off_delay (failures 9 ExponentialBackOff_init) 4 H2 C2)
    as (_ & _ & H4 & _).
  split; [exact H7|]. split; [exact H4|exact R7].
Defined.


(** ** Properties of [data_received] *)

Section DataReceivedFacts.

Context {R : Type} `{!MeterReaderBase R} {A : Type}.
Variable message_received : MeterMessageBase -> list A -> list A.

Abbreviation forward := (forward message_received).
Abbreviation probe := (probe message_received).
Abbreviation data_received := (data_received message_received).
Abbreviation data_received_all := (data_received_all message_received).
Abbreviation delivered := (delivered message_received).
Abbreviation World := (World R A).

Lemma select_if_valid_has_valid reader messages p :
  select_if_valid reader messages p
  = if has_valid messages then select_reader reader p else p.
Proof.
  induction messages as [|msg rest IH]; cbn; [reflexivity|].
  destruct (is_valid msg); cbn; [reflexivity|exact IH].
Qed.

Lemma forward_calls messages (w : World) :
  calls (forward messages w) = calls w ++ map MessageReceived messages.
Proof.
  unfold forward, delivered. revert w. induction messages as [|msg rest IH]; intros w; cbn.
  - by rewrite app_nil_r.
  - rewrite IH. cbn. by rewrite <- app_assoc.
Qed.

Lemma forward_queue messages (w : World) :
  queue (forward messages w) = delivered messages (queue w).
Proof.
  unfold forward, delivered. revert w. induction messages as [|msg rest IH]; intros w; cbn; [done|].
  by rewrite IH.
Qed.

Lemma forward_readers messages (w : World) :
  readers (forward messages w) = readers w.
Proof.
  unfold forward, delivered. revert w. induction messages as [|msg rest IH]; intros w; cbn; [done|].
  by rewrite IH.
Qed.

Lemma call_read_calls reader data (w : World) :
  calls (snd (call_read reader data w))
  = calls w ++ [ReaderRead reader data (fst (call_read reader data w))].
Proof. unfold call_read. by destruct (read _ _). Qed.

Lemma call_read_queue reader data (w : World) :
  queue (snd (call_read reader data w)) = queue w.
Proof. unfold call_read. by destruct (read _ _). Qed.

(** The probing loop, by induction on the candidates still to visit. *)
Lemma probe_result candidates data p (w : World) :
  _selected_reader p = None ->
  probing_result message_received data candidates p w
    (fst (probe candidates data p w)) (snd (probe candidates data p w)).
Proof.
  intros Hnone. revert w.
  induction candidates as [|reader rest IH]; intros w.
  - apply (probing_continues _ _ _ _ _ _ _ []); cbn; auto.
    by rewrite app_nil_r.
  - cbn [probe].
    pose proof (call_read_calls reader data w) as Hc.
    pose proof (call_read_queue reader data w) as Hq.
    destruct (call_read reader data w) as [messages w1]. cbn in Hc, Hq.
    rewrite select_if_valid_has_valid.
    destruct (has_valid messages) eqn:Hv.
    + cbn.
      apply (probing_commits _ _ _ _ _ _ _ [] rest reader [] messages); auto.
      * rewrite forward_calls, Hc. cbn. by rewrite <- app_assoc.
      * by rewrite forward_queue, Hq.
    + rewrite Hnone.
      destruct (IH w1) as [returns Hlen Hall Hp Hcalls Hqueue
                          |before after winner returns ms Hsplit Hlen Hall Hms Hp Hcalls Hqueue].
      * apply (probing_continues _ _ _ _ _ _ _ (messages :: returns)); cbn; auto.
        -- rewrite Hcalls, Hc. by rewrite <- app_assoc.
        -- by rewrite Hqueue.
      * apply (probing_commits _ _ _ _ _ _ _ (reader :: before) after winner
                 (messages :: returns) ms); cbn; auto.
        -- by rewrite Hsplit.
        -- rewrite Hcalls, Hc. by rewrite <- !app_assoc.
        -- by rewrite Hqueue, Hq.
Qed.

Lemma data_received_committed data reader p (w : World) :
  _selected_reader p = Some reader ->
  data_received data (p, w)
  = (p, forward (fst (call_read reader data w)) (snd (call_read reader data w))).
Proof.
  intros Hsel. unfold data_received. rewrite Hsel.
  by destruct (call_read reader data w).
Qed.

Lemma data_received_all_cons data rest (st : SmartMeterBaseProtocol * World) :
  data_received_all (data :: rest) st
  = data_received_all rest (data_received data st).
Proof. reflexivity. Qed.




Lemma call_read_exact reader data (w : World) :
  call_read reader data w
  = (fst (read (readers w reader) data),
     {| readers := <[reader := snd (read (readers w reader) data)]> (readers w);
        queue := queue w;
        calls := calls w
                 ++ [ReaderRead reader data (fst (read (readers w reader) data))] |}).
Proof. unfold call_read. by destruct (read (readers w reader) data). Qed.

Lemma reader_run_length (r : R) chunks :
  length (fst (reader_run r chunks)) = length chunks.
Proof.
  revert r. induction chunks as [|data rest IH]; intros r; cbn; [done|].
  by rewrite IH.
Qed.

Lemma feed_length fed data (heap : nat -> R) :
  length (fst (feed fed data heap)) = length fed.
Proof.
  revert heap. induction fed as [|reader rest IH]; intros heap; cbn; [done|].
  by rewrite IH.
Qed.

(** A committed protocol, in terms of what its reader's [read] returns. *)
Lemma committed_exact chunks reader p (w : World) :
  _selected_reader p = Some reader ->
  fst (data_received_all chunks (p, w)) = p
  /\ calls (snd (data_received_all chunks (p, w)))
     = calls w ++ routed reader chunks (fst (reader_run (readers w reader) chunks))
  /\ queue (snd (data_received_all chunks (p, w)))
     = delivered (concat (fst (reader_run (readers w reader) chunks))) (queue w)
  /\ (forall r,
        readers (snd (data_received_all chunks (p, w))) r
        = (<[reader := snd (reader_run (readers w reader) chunks)]> (readers w)) r).
Proof.
  intros Hsel. revert w.
  induction chunks as [|data rest IH]; intros w.
  - cbn. rewrite app_nil_r. repeat split.
    intros r. destruct (decide (r = reader)) as [->|Hne].
    + by rewrite fn_lookup_insert.
    + by rewrite fn_lookup_insert_ne.
  - rewrite data_received_all_cons, (data_received_committed _ _ _ _ Hsel).
    rewrite call_read_exact. cbn [fst snd].
    set (messages := fst (read (readers w reader) data)).
    set (r1 := snd (read (readers w reader) data)).
    set (w1 := forward messages _).
    assert (Hr1 : readers w1 reader = r1).
    { unfold w1. rewrite forward_readers. cbn. apply fn_lookup_insert. }
    destruct (IH w1) as (Hp & Hcalls & Hqueue & Hreaders).
    rewrite Hr1 in Hcalls, Hqueue, Hreaders.
    cbn [reader_run fst snd]. fold messages. fold r1.
    split; [exact Hp|]. split; [|split].
    + rewrite Hcalls. unfold w1. rewrite forward_calls. unfold routed. cbn.
      by rewrite <- !app_assoc.
    + rewrite Hqueue. unfold w1. rewrite forward_queue. cbn. unfold delivered.
      by rewrite fold_left_app.
    + intros r. rewrite Hreaders.
      destruct (decide (r = reader)) as [->|Hne].
      * by rewrite !fn_lookup_insert.
      * rewrite !fn_lookup_insert_ne by done.
        unfold w1. rewrite forward_readers. cbn. by rewrite fn_lookup_insert_ne.
Qed.

(** A probing pass that selects [reader], in terms of what [read] returns. *)
Lemma probe_commit_exact candidates data p (w : World) reader :
  _selected_reader p = None ->
  _selected_reader (fst (probe candidates data p w)) = Some reader ->
  exists before after,
    candidates = before ++ reader :: after
    /\ Forall (fun ms => has_valid ms = false) (fst (feed before data (readers w)))
    /\ has_valid (fst (read (snd (feed before data (readers w)) reader) data)) = true
    /\ fst (probe candidates data p w) = select_reader reader p
    /\ calls (snd (probe candidates data p w))
       = calls w ++ reads data before (fst (feed before data (readers w)))
           ++ ReaderRead reader data
                (fst (read (snd (feed before data (readers w)) reader) data))
           :: map MessageReceived
                (fst (read (snd (feed before data (readers w)) reader) data))
    /\ queue (snd (probe candidates data p w))
       = delivered (fst (read (snd (feed before data (readers w)) reader) data))
           (queue w)
    /\ (forall r,
          readers (snd (probe candidates data p w)) r
          = (<[reader := snd (read (snd (feed before data (readers w)) reader) data)]>
               (snd (feed before data (readers w)))) r).
Proof.
  intros Hnone. revert w.
  induction candidates as [|candidate rest IH]; intros w Hsel.
  - cbn in Hsel. rewrite Hnone in Hsel. discriminate Hsel.
  - cbn [probe] in *. rewrite call_read_exact in *.
    rewrite select_if_valid_has_valid in *.
    set (messages := fst (read (readers w candidate) data)) in *.
    set (r1 := snd (read (readers w candidate) data)) in *.
    destruct (has_valid messages) eqn:Hvalid.
    + cbn in Hsel. injection Hsel as ->.
      exists [], rest. cbn [feed fst snd reads zip_with app].
      fold messages. fold r1.
      split; [reflexivity|]. split; [constructor|]. split; [exact Hvalid|].
      cbn. split; [reflexivity|]. rewrite forward_calls, forward_queue, forward_readers.
      cbn. rewrite <- app_assoc. by repeat split.
    + rewrite Hnone in *.
      set (w1 := {| readers := <[candidate := r1]> (readers w);
                    queue := queue w;
                    calls := calls w ++ [ReaderRead candidate data messages] |}) in *.
      destruct (IH w1 Hsel)
        as (before & after & -> & Hall & Hwin & Hp & Hcalls & Hqueue & Hreaders).
      exists (candidate :: before), after.
      cbn [feed fst snd]. fold messages. fold r1.
      change (<[candidate := r1]> (readers w)) with (readers w1).
      split; [reflexivity|]. split; [by constructor|]. split; [exact Hwin|].
      split; [exact Hp|]. split; [|split; [exact Hqueue|exact Hreaders]].
      rewrite Hcalls. cbn. by rewrite <- !app_assoc.
Qed.

(** C2. When a probing call selects [reader]:
    - the candidate list is empty afterwards;
    - the candidates [before] it in the list have read the chunk and
      returned nothing valid, those [after] it are not read; the call ends
      with [reader]'s read of the chunk followed by [message_received] for
      every message that this read returned, in order, valid or not;
    - whatever chunks follow, each is read by [reader] alone, all the
      messages its [read] returns are handed to [message_received], the
      other reader objects are left alone, and the protocol object stays
      as it is (same selected reader, no candidates).
    The messages are the ones that [read] returns on the reader objects
    as they are at that point ([feed], [reader_run]). *)
Theorem data_received_commit data chunks p (w : World) p' w' reader :
  _selected_reader p = None ->
  data_received data (p, w) = (p', w') ->
  _selected_reader p' = Some reader ->
  _reader_candidates p' = []
  /\ (exists before after,
        let returns := fst (feed before data (readers w)) in
        let heap := snd (feed before data (readers w)) in
        let messages := fst (read (heap reader) data) in
        _reader_candidates p = before ++ reader :: after
        /\ length returns = length before
        /\ Forall (fun ms => has_valid ms = false) returns
        /\ has_valid messages = true
        /\ calls w' = calls w ++ reads data before returns
                        ++ ReaderRead reader data messages
                        :: map MessageReceived messages
        /\ queue w' = delivered messages (queue w)
        /\ (forall r,
              readers w' r = (<[reader := snd (read (heap reader) data)]> heap) r))
  /\ (let returns := fst (reader_run (readers w' reader) chunks) in
      let final := data_received_all chunks (p', w') in
      length returns = length chunks
      /\ fst final = p'
      /\ calls (snd final) = calls w' ++ routed reader chunks returns
      /\ queue (snd final) = delivered (concat returns) (queue w')
      /\ (forall r,
            readers (snd final) r
            = (<[reader := snd (reader_run (readers w' reader) chunks)]>
                 (readers w')) r)).
Proof.
  intros Hnone Hrun Hsel.
  unfold data_received in Hrun. rewrite Hnone in Hrun.
  assert (Hsel' : _selected_reader (fst (probe (_reader_candidates p) data p w))
                  = Some reader) by (by rewrite Hrun).
  destruct (probe_commit_exact _ _ _ _ _ Hnone Hsel')
    as (before & after & Hsplit & Hall & Hwin & Hp & Hcalls & Hqueue & Hreaders).
  rewrite Hrun in Hp, Hcalls, Hqueue, Hreaders. cbn [fst snd] in *.
  split; [by rewrite Hp|]. split.
  - exists before, after. cbn zeta.
    split; [exact Hsplit|]. split; [apply feed_length|]. by repeat split.
  - cbn zeta. split; [apply reader_run_length|].
    by apply committed_exact.
Qed.

End DataReceivedFacts.

(** ** Worked examples for [data_received] *)



Lemma data_received_commit_witness :
  _selected_reader example_protocol = None
  /\ _selected_reader (fst payload_after_chunk) = Some 0%nat
  /\ _reader_candidates (fst payload_after_chunk) = []
  /\ calls (snd payload_after_chunk)
     = [ReaderRead 0 example_chunk
          [frame_message Byte.x0a []; frame_message Byte.x0a [Byte.x41]];
        MessageReceived (frame_message Byte.x0a []);
        MessageReceived (frame_message Byte.x0a [Byte.x41])]
  /\ queue (snd payload_after_chunk) = [[Byte.x41]]
  /\ fst payload_after_more = fst payload_after_chunk
  /\ calls (snd payload_after_more)
     = calls (snd payload_after_chunk)
       ++ routed 0 [example_junk; example_chunk]
            [[]; [frame_message Byte.x0a [Byte.x41; Byte.x42];
                  frame_message Byte.x0a [Byte.x41]]]
  /\ queue (snd payload_after_more)
     = [[Byte.x41]; [Byte.x41; Byte.x42]; [Byte.x41]].
Proof.
  split; [reflexivity|]. split; [reflexivity|].
  assert (Hrun : data_received SmartMeterMessagePayloadProtocol.message_received
                   example_chunk (example_protocol, example_world)
                 = (fst payload_after_chunk, snd payload_after_chunk))
    by reflexivity.
  assert (Hnone : _selected_reader example_protocol = None) by reflexivity.
  assert (Hsel : _selected_reader (fst payload_after_chunk) = Some 0%nat)
    by reflexivity.
  destruct (data_received_commit SmartMeterMessagePayloadProtocol.message_received
              example_chunk [example_junk; example_chunk]
              example_protocol example_world _ _ 0%nat Hnone Hrun Hsel)
    as (Hcands & (before & after & Hsplit & _) & _ & Hp & Hcalls & Hqueue & _).
  split; [exact Hcands|].
  split; [reflexivity|]. split; [reflexivity|].
  split; [exact Hp|]. split; [exact Hcalls|].
  refine (eq_trans Hqueue _). reflexivity.
Defined.

(** ** The payload-only protocol *)

Lemma app_singleton_neq {A : Type} (l : list A) (x : A) : l ++ [x] <> l.
Proof.
  intros H. apply (f_equal length) in H. rewrite length_app in H. cbn in H. lia.
Qed.

(** C4. [SmartMeterMessagePayloadProtocol.message_received] puts something
    on the queue exactly when the message is valid and has a payload that is
    neither [None] nor empty; what it puts is that payload; an invalid
    message, or a valid one whose payload is [None] or empty, leaves the
    queue as it was. *)
Theorem payload_only_policy (message : MeterMessageBase) (queue : list bytes) :
  ((exists item, SmartMeterMessagePayloadProtocol.message_received message queue = queue ++ [item])
   <-> (is_valid message = true
        /\ exists bs, payload message = Some bs /\ bs <> []))
  /\ (forall bs, is_valid message = true -> payload message = Some bs -> bs <> [] ->
       SmartMeterMessagePayloadProtocol.message_received message queue = queue ++ [bs])
  /\ (is_valid message = false \/ payload message = None \/ payload message = Some [] ->
       SmartMeterMessagePayloadProtocol.message_received message queue = queue).
Proof.
  unfold SmartMeterMessagePayloadProtocol.message_received, put_nowait.
  destruct message as [valid [bs|] raw]; cbn [is_valid payload].
  - destruct valid.
    + destruct bs as [|b bs]; cbn [length].
      * split; [split|split].
        -- intros [item H]. symmetry in H. by apply app_singleton_neq in H.
        -- intros [_ (bs & [= <-] & Hne)]. done.
        -- intros bs _ [= <-] Hne. done.
        -- done.
      * replace (0 <? Z.of_nat (S (length bs))) with true
          by (symmetry; apply Z.ltb_lt; lia).
        split; [split|split].
        -- intros _. split; [done|]. by exists (b :: bs).
        -- intros _. by exists (b :: bs).
        -- by intros bs' _ [= <-] _.
        -- intros [H|[H|H]]; discriminate H.
    + split; [split|split].
      * intros [item H]. symmetry in H. by apply app_singleton_neq in H.
      * intros [H _]. discriminate H.
      * intros bs' H. discriminate H.
      * done.
  - split; [split|split].
    + intros [item H]. destruct valid; symmetry in H; by apply app_singleton_neq in H.
    + intros [_ (bs & H & _)]. discriminate H.
    + intros bs _ H. discriminate H.
    + by destruct valid.
Qed.

Lemma payload_only_policy_witness :
  SmartMeterMessagePayloadProtocol.message_received
    {| is_valid := true; payload := Some [Byte.x01; Byte.x02]; as_bytes := None |} []
  = [[Byte.x01; Byte.x02]]
  /\ SmartMeterMessagePayloadProtocol.message_received
       {| is_valid := true; payload := Some []; as_bytes := None |} [] = []
  /\ SmartMeterMessagePayloadProtocol.message_received
       {| is_valid := false; payload := Some [Byte.x01; Byte.x02]; as_bytes := None |} []
     = [].
Proof.
  split; [|split].
  - apply (payload_only_policy
             {| is_valid := true; payload := Some [Byte.x01; Byte.x02]; as_bytes := None |} []);
      [reflexivity|reflexivity|discriminate].
  - apply (payload_only_policy
             {| is_valid := true; payload := Some []; as_bytes := None |} []).
    right. right. reflexivity.
  - apply (payload_only_policy
             {| is_valid := false; payload := Some [Byte.x01; Byte.x02]; as_bytes := None |} []).
    left. reflexivity.
Defined.

(** ** connection_lost *)

(** C8 (as the code has it). On a protocol whose done future is still
    pending, one [connection_lost] call returns without raising, whatever
    its argument and whether or not [close()] raises: [close()] is called on
    the transport when there is one and its exception, if any, goes no
    further; [set_result] is the last call, made once, and the future is
    finished. *)
Theorem connection_lost_completes_done (exc : option Exception)
    (p : SmartMeterBaseProtocol) (log : list call)
    (p' : SmartMeterBaseProtocol) (log' : list call) (res : result Exception unit) :
  _done p = Pending ->
  connection_lost exc (p, log) = ((p', log'), res) ->
  res = inr tt
  /\ _done p' = Finished
  /\ log' = log
            ++ match _transport p with
               | Some transport => [TransportClose transport]
               | None => []
               end
            ++ [DoneSetResult]
  /\ _transport p'
     = match _transport p with
       | Some transport =>
           match close_raises transport with
           | Some _ => Some transport
           | None => None
           end
       | None => None
       end.
Proof.
  intros Hpending Hrun. unfold connection_lost in Hrun.
  destruct (_transport p) as [transport|] eqn:Ht.
  - destruct (close_raises transport) as [ex|] eqn:Hclose;
      cbn in Hrun; rewrite Hpending in Hrun; cbn in Hrun;
      injection Hrun as <- <- <-; cbn; rewrite ?Ht, <- ?app_assoc; auto.
  - rewrite Hpending in Hrun. cbn in Hrun. injection Hrun as <- <- <-.
    cbn. rewrite Ht. auto.
Qed.

Lemma connection_lost_completes_done_witness :
  let p := set_transport (Some example_broken_transport) example_protocol in
  _done p = Pending
  /\ snd (connection_lost (Some (OSError "read failed")) (p, [])) = inr tt
  /\ snd (fst (connection_lost (Some (OSError "read failed")) (p, [])))
     = [TransportClose example_broken_transport; DoneSetResult].
Proof.
  cbn zeta. split; [reflexivity|].
  assert (Hrun : connection_lost (Some (OSError "read failed"))
                   (set_transport (Some example_broken_transport) example_protocol, [])
                 = ((set_done Finished
                       (set_transport (Some example_broken_transport) example_protocol),
                     [TransportClose example_broken_transport; DoneSetResult]),
                    inr tt))
    by reflexivity.
  assert (Hpending : _done (set_transport (Some example_broken_transport)
                             example_protocol) = Pending) by reflexivity.
  destruct (connection_lost_completes_done _ _ _ _ _ _ Hpending Hrun)
    as (Hres & _ & Hlog & _).
  split; [exact Hres|exact Hlog].
Defined.

(** C8 as worded fails for an invocation that finds the done future no
    longer pending: [set_result] raises [InvalidStateError] and nothing
    catches it. This is so for a second invocation on the same protocol,
    and for a first one after the code awaiting the future has been
    cancelled (which cancels the future). *)
Lemma connection_lost_raises_on_completed_future :
  let once := fst (connection_lost None (example_protocol, [])) in
  let abandoned := set_done Cancelled
                     (set_transport (Some example_transport) example_protocol) in
  snd (connection_lost None (example_protocol, [])) = inr tt
  /\ snd (connection_lost (Some (OSError "read failed")) once)
     = inl InvalidStateError
  /\ snd (connection_lost None (abandoned, [])) = inl InvalidStateError
  /\ _done (fst (fst (connection_lost None (abandoned, [])))) = Cancelled.
Proof. cbn zeta. repeat split. Qed.

(** ** Construction of the manager *)

Lemma init_coroutine_function f :
  iscoroutinefunction f = true ->
  snd (__init__ f ∅) = inr tt
  /\ manager_of_attributes (fst (__init__ f ∅)) = Some (initial_manager f).
Proof.
  intros Hf. destruct f as [c]. cbn in Hf. subst c.
  split; reflexivity.
Qed.

(** C10. [ConnectionManager.__init__] raises [ValueError] exactly when
    [iscoroutinefunction] rejects the factory, and then it has assigned no
    attribute: the attribute dictionary is as it was, empty for a new
    object. Otherwise it raises nothing and every attribute is set. *)
Theorem init_raises_iff_not_coroutine_function (f : AsyncConnectionFactory)
    (self : gmap string attribute) :
  ((exists msg, snd (__init__ f self) = inl (ValueError msg))
   <-> iscoroutinefunction f = false)
  /\ ((exists e, snd (__init__ f self) = inl e) <-> iscoroutinefunction f = false)
  /\ (iscoroutinefunction f = false ->
      fst (__init__ f self) = self
      /\ fst (__init__ f ∅) = ∅
      /\ manager_of_attributes (fst (__init__ f ∅)) = None
      /\ ConnectionManager_new f = inl (ValueError "Factory must be awaitable."))
  /\ (iscoroutinefunction f = true ->
      ConnectionManager_new f = inr (Some (initial_manager f))).
Proof.
  unfold ConnectionManager_new, __init__.
  destruct f as [[|]]; cbn [iscoroutinefunction negb].
  - split; [|split; [|split]].
    + split; [intros [msg H]; discriminate H | intros H; discriminate H].
    + split; [intros [msg H]; discriminate H | intros H; discriminate H].
    + intros H. discriminate H.
    + intros _. reflexivity.
  - split; [|split; [|split]].
    + split; [done | intros _; by eexists].
    + split; [done | intros _; by eexists].
    + intros _. repeat split; reflexivity.
    + intros H. discriminate H.
Qed.

Lemma init_raises_iff_not_coroutine_function_witness :
  ConnectionManager_new {| iscoroutinefunction := false |}
  = inl (ValueError "Factory must be awaitable.")
  /\ fst (__init__ {| iscoroutinefunction := false |} ∅) = ∅
  /\ ConnectionManager_new example_factory = inr (Some (initial_manager example_factory)).
Proof.
  destruct (init_raises_iff_not_coroutine_function
              {| iscoroutinefunction := false |} ∅) as (_ & _ & Hbad & _).
  destruct (Hbad eq_refl) as (_ & Hempty & _ & Hnew).
  destruct (init_raises_iff_not_coroutine_function example_factory ∅)
    as (_ & _ & _ & Hgood).
  split; [exact Hnew|]. split; [exact Hempty|]. exact (Hgood eq_refl).
Defined.

(** ** Back-off time and circuit breaker *)

(** C5. The sleep time before a connect attempt is the larger of the
    connect-error delay and the reconnect delay, the latter being
    [connection_lost_back_off_sleep_sec] when the recent-disconnect flag is
    set and 0 otherwise. With a connect-error delay of 8 (four failures),
    the flag set and a sleep constant of 5 it is 8. *)
Theorem back_off_time_is_max (m : ConnectionManager) (f : AsyncConnectionFactory)
    (last : datetime) :
  _get_back_off_time m
  = Z.max (current_delay_sec (back_off_connect_error m))
          (if _connection_lost_sleep_before_reconnect m
           then connection_lost_back_off_sleep_sec m else 0)
  /\ current_delay_sec (failures 4 ExponentialBackOff_init) = 8
  /\ _get_back_off_time
       (set_circuit_breaker (Some last) true
          (set_back_off (failures 4 ExponentialBackOff_init) (initial_manager f)))
     = 8.
Proof.
  split; [|split; reflexivity].
  unfold _get_back_off_time.
  destruct (_connection_lost_sleep_before_reconnect m).
  - rewrite orb_true_r. reflexivity.
  - rewrite orb_false_r.
    destruct (Z.ltb_spec 0 (current_delay_sec (back_off_connect_error m))); lia.
Qed.

Lemma update_circuit_breaker_consistent now m :
  circuit_breaker_consistent (_update_connection_lost_circuit_breaker now m).
Proof. intros H. discriminate H. Qed.

Lemma initial_manager_consistent f : circuit_breaker_consistent (initial_manager f).
Proof. intros _. reflexivity. Qed.

(** C6. An unexpected disconnect at time [now] sets the recent-disconnect
    flag to whether a previous disconnect time is stored and [now] is less
    than the threshold after it, and stores [now] in every case. Threshold
    and sleep constant are both 5 by default: from a new manager, a second
    disconnect 2 seconds after the first sets the flag, one 10 seconds
    after the first does not. *)
Theorem circuit_breaker_update (m : ConnectionManager) (now : datetime)
    (f : AsyncConnectionFactory) (first : datetime)
    (Hm : circuit_breaker_consistent m) :
  let m' := _update_connection_lost_circuit_breaker now m in
  _connection_lost_sleep_before_reconnect m'
  = match _connection_lost_last_time m with
    | Some last =>
        bool_decide (now - last
                     < connection_lost_back_off_threshold m * MICROSECONDS_PER_SECOND)
    | None => false
    end
  /\ _connection_lost_last_time m' = Some now
  /\ connection_lost_back_off_threshold (initial_manager f) = 5
  /\ connection_lost_back_off_sleep_sec (initial_manager f) = 5
  /\ _connection_lost_sleep_before_reconnect
       (_update_connection_lost_circuit_breaker (first + 2 * MICROSECONDS_PER_SECOND)
          (_update_connection_lost_circuit_breaker first (initial_manager f)))
     = true
  /\ _connection_lost_sleep_before_reconnect
       (_update_connection_lost_circuit_breaker (first + 10 * MICROSECONDS_PER_SECOND)
          (_update_connection_lost_circuit_breaker first (initial_manager f)))
     = false.
Proof.
  cbn zeta. split; [|split; [reflexivity|split; [reflexivity|split; [reflexivity|]]]].
  - unfold _update_connection_lost_circuit_breaker. cbn.
    destruct (_connection_lost_last_time m) as [last|] eqn:Hlast.
    + destruct (Z.ltb_spec (now - last)
                  (connection_lost_back_off_threshold m * MICROSECONDS_PER_SECOND)).
      * by rewrite bool_decide_eq_true_2.
      * rewrite bool_decide_eq_false_2; [done|lia].
    + by apply Hm.
  - unfold _update_connection_lost_circuit_breaker, MICROSECONDS_PER_SECOND. cbn.
    split; [apply Z.ltb_lt | apply Z.ltb_ge]; lia.
Qed.

Lemma circuit_breaker_update_witness :
  let m := _update_connection_lost_circuit_breaker 1000000 (initial_manager example_factory) in
  circuit_breaker_consistent m
  /\ _connection_lost_sleep_before_reconnect
       (_update_connection_lost_circuit_breaker 5999999 m) = true
  /\ _connection_lost_sleep_before_reconnect
       (_update_connection_lost_circuit_breaker 6000000 m) = false.
Proof.
  cbn zeta.
  assert (Hm : circuit_breaker_consistent
                 (_update_connection_lost_circuit_breaker 1000000
                    (initial_manager example_factory)))
    by (intros H; discriminate H).
  split; [exact Hm|]. split.
  - destruct (circuit_breaker_update _ 5999999 example_factory 0 Hm) as (H & _).
    rewrite H. reflexivity.
  - destruct (circuit_breaker_update _ 6000000 example_factory 0 Hm) as (H & _).
    rewrite H. reflexivity.
Defined.

(** ** _try_connect *)

Section TryConnectFacts.

(** Setting the connection and the flag twice is setting them once. *)
Lemma set_connection_flag_twice c2 k2 c1 k1 m :
  set_connection c2 (set_is_closing k2 (set_connection c1 (set_is_closing k1 m)))
  = set_connection c2 (set_is_closing k2 m).
Proof. reflexivity. Qed.

Lemma set_connection_flag_same m :
  set_connection (_connection m) (set_is_closing (_is_closing m) m) = m.
Proof. by destruct m. Qed.

(** [close()] assigns the flag and the connection and logs nothing but a
    transport [close()]. *)
Lemma close_frame st :
  exists c new,
    fst (close st) = (set_connection c (set_is_closing true (fst st)), snd st ++ new)
    /\ Forall (fun x => is_transport_close x = true) new
    /\ (c = _connection (fst st) \/ c = None)
    /\ (_connection (fst st) = None -> c = None /\ new = []).
Proof.
  destruct st as [[f c closing b th sl last recent] log]. unfold close.
  cbn [set_is_closing _connection fst snd].
  destruct c as [[transport proto]|].
  - destruct (close_raises transport).
    + exists (Some (transport, proto)), [ConnectionTransportClose transport].
      cbn. split; [reflexivity|]. split; [by repeat constructor|].
      split; [by left|]. intros H. discriminate H.
    + exists None, [ConnectionTransportClose transport].
      cbn. split; [reflexivity|]. split; [by repeat constructor|].
      split; [by right|]. intros H. discriminate H.
  - exists None, []. cbn. rewrite app_nil_r. split; [reflexivity|].
    split; [constructor|]. split; [by left|]. by split.
Qed.

Lemma interfered_cons i rest st :
  interfered (i :: rest) st = interfered rest (interfere st i).
Proof. reflexivity. Qed.

(** So does any other code that runs while a coroutine is suspended. *)
Lemma interfered_frame during st :
  exists c closing new,
    interfered during st
    = (set_connection c (set_is_closing closing (fst st)), snd st ++ new)
    /\ Forall (fun x => is_transport_close x = true) new
    /\ (c = _connection (fst st) \/ c = None)
    /\ (_connection (fst st) = None ->
        c = None /\ new = [] /\ closing = flag_after during (_is_closing (fst st)))
    /\ (during = [] -> closing = _is_closing (fst st)).
Proof.
  revert st. induction during as [|i rest IH]; intros st.
  - exists (_connection (fst st)), (_is_closing (fst st)), [].
    cbn. rewrite app_nil_r, set_connection_flag_same.
    split; [by destruct st|]. split; [constructor|]. split; [by left|].
    split; [intros ->; by repeat split|done].
  - rewrite interfered_cons. destruct i; cbn [interfere].
    + destruct (close_frame st) as (c1 & new1 & E1 & Hnew1 & Hc1 & Hnone1).
      destruct (IH (fst (close st))) as (c2 & k2 & new2 & E2 & Hnew2 & Hc2 & Hnone2 & _).
      rewrite E2, E1. cbn [fst snd] in *. rewrite E1 in Hc2, Hnone2. cbn in Hc2, Hnone2.
      exists c2, k2, (new1 ++ new2). rewrite set_connection_flag_twice, app_assoc.
      split; [reflexivity|]. split; [by apply Forall_app|].
      split; [destruct Hc2 as [-> | ->]; [exact Hc1|by right]|].
      split; [|discriminate].
      intros Hnone. destruct (Hnone1 Hnone) as [-> ->].
      destruct (Hnone2 eq_refl) as (-> & -> & ->). by repeat split.
    + destruct (IH (set_is_closing false (fst st), snd st))
        as (c2 & k2 & new2 & E2 & Hnew2 & Hc2 & Hnone2 & _).
      rewrite E2. cbn [fst snd] in *.
      exists c2, k2, new2. split; [by destruct st as [[]]|].
      split; [exact Hnew2|]. split; [exact Hc2|].
      split; [|discriminate].
      intros Hnone. destruct (Hnone2 Hnone) as (-> & -> & ->). by repeat split.
Qed.




(** The attempt in two parts: up to the suspension, and from there. *)
Lemma try_connect_in_two_parts env st :
  _try_connect env st
  = match try_connect_start st with
    | (st1, Some asleep) =>
        try_connect_resume asleep env (interfered (during_sleep env) st1)
    | (st1, Some connecting) =>
        try_connect_resume connecting env (interfered (during_connect env) st1)
    | (st1, None) => (st1, inr tt)
    end.
Proof.
  destruct st as [m log]. unfold _try_connect, try_connect_start, try_connect_resume.
  destruct (0 <? _get_back_off_time m).
  - destruct (interfered (during_sleep env) _) as [m1 log1]. cbn [fst snd].
    by destruct (sleep_cancelled env).
  - by destruct (negb (_is_closing m)).
Qed.

End TryConnectFacts.

(** What [_try_connect] leaves of the manager: the fields other than the
    connection, the flag and the back-off policy are never assigned. *)
Lemma connect_finished_frame outcome st :
  exists c b,
    fst (fst (connect_finished outcome st))
    = set_connection c (set_back_off b (fst st)).
Proof.
  destruct st as [[f c closing b th sl last recent] log].
  destruct outcome as [[|ex]|conn]; cbn; eexists _, _; reflexivity.
Qed.

Lemma try_connect_frame env st :
  exists c b closing,
    fst (fst (_try_connect env st))
    = set_connection c (set_back_off b (set_is_closing closing (fst st))).
Proof.
  destruct st as [m log]. unfold _try_connect.
  assert (Hsame : exists c b closing,
             m = set_connection c (set_back_off b (set_is_closing closing m)))
    by (exists (_connection m), (back_off_connect_error m), (_is_closing m);
        by destruct m).
  assert (Hconnect : forall m1 log1,
             (exists c closing, m1 = set_connection c (set_is_closing closing m)) ->
             exists c b closing,
               fst (fst (connect_finished (factory_outcome env)
                           (interfered (during_connect env) (m1, log1))))
               = set_connection c (set_back_off b (set_is_closing closing m))).
  { intros m1 log1 (c1 & k1 & ->).
    destruct (interfered_frame (during_connect env)
                (set_connection c1 (set_is_closing k1 m), log1))
      as (c2 & k2 & new2 & E2 & _).
    rewrite E2. cbn [fst snd].
    destruct (connect_finished_frame (factory_outcome env)
                (set_connection c2
                   (set_is_closing k2 (set_connection c1 (set_is_closing k1 m))),
                 log1 ++ new2)) as (c3 & b3 & E3).
    rewrite E3. cbn [fst]. exists c3, b3, k2. by destruct m. }
  destruct (0 <? _get_back_off_time m).
  - destruct (interfered_frame (during_sleep env)
                (m, log ++ [Sleep (_get_back_off_time m)]))
      as (c1 & k1 & new1 & E1 & _).
    rewrite E1. cbn [fst snd].
    assert (Hslept : exists c b closing,
               set_connection c1 (set_is_closing k1 m)
               = set_connection c (set_back_off b (set_is_closing closing m)))
      by (exists c1, (back_off_connect_error m), k1; by destruct m).
    destruct (sleep_cancelled env); [exact Hslept|].
    destruct (negb (_is_closing (set_connection c1 (set_is_closing k1 m))));
      [|exact Hslept].
    apply Hconnect. by exists c1, k1.
  - destruct (negb (_is_closing m)); [|exact Hsame].
    apply Hconnect. exists (_connection m), (_is_closing m). by destruct m.
Qed.

(** [close] and [_try_connect] leave the circuit-breaker fields alone. *)
Lemma close_circuit_breaker st :
  _connection_lost_last_time (fst (fst (close st)))
  = _connection_lost_last_time (fst st)
  /\ _connection_lost_sleep_before_reconnect (fst (fst (close st)))
     = _connection_lost_sleep_before_reconnect (fst st).
Proof.
  destruct (close_frame st) as (c & new & E & _). rewrite E. by split.
Qed.

Lemma try_connect_circuit_breaker env st :
  _connection_lost_last_time (fst (fst (_try_connect env st)))
  = _connection_lost_last_time (fst st)
  /\ _connection_lost_sleep_before_reconnect (fst (fst (_try_connect env st)))
     = _connection_lost_sleep_before_reconnect (fst st).
Proof.
  destruct (try_connect_frame env st) as (c & b & closing & E). rewrite E. by split.
Qed.

(** Every manager the module can produce satisfies the invariant. *)
Lemma reachable_consistent m : reachable m -> circuit_breaker_consistent m.
Proof.
  induction 1 as [f Hf|th sl b m _ IH|m log _ IH|env m log _ IH|now m _ _].
  - apply initial_manager_consistent.
  - exact IH.
  - destruct (close_circuit_breaker (m, log)) as [H1 H2].
    unfold circuit_breaker_consistent in *. rewrite H1, H2. exact IH.
  - destruct (try_connect_circuit_breaker env (m, log)) as [H1 H2].
    unfold circuit_breaker_consistent in *. rewrite H1, H2. exact IH.
  - apply update_circuit_breaker_consistent.
Qed.






(** ** connect_loop *)






(** * Further properties *)

(** ** The back-off policy under arbitrary call sequences *)

Lemma back_off_invariant_step b c :
  back_off_invariant b -> back_off_invariant (back_off_step b c).
Proof.
  intros [Hmax Hdelay]. destruct c; cbn [back_off_step]; split; try exact Hmax.
  - right. destruct Hdelay as [H0|[k Hk]].
    + exists 0%nat. by rewrite failure_delay_zero.
    + exists (S k). rewrite failure_delay_pos, Hk.
      * rewrite Nat2Z.inj_succ, Z.pow_succ_r by lia. reflexivity.
      * rewrite Hk. apply Z.pow_pos_nonneg; lia.
  - left. reflexivity.
Qed.

Lemma back_off_invariant_run cs b :
  back_off_invariant b -> back_off_invariant (back_off_run cs b).
Proof.
  revert b. induction cs as [|c cs IH]; intros b Hb; [exact Hb|].
  apply IH. by apply back_off_invariant_step.
Qed.

Lemma back_off_invariant_nonneg b : back_off_invariant b -> 0 <= _delay b.
Proof.
  intros [_ [H0|[k Hk]]]; [lia|]. rewrite Hk. apply Z.pow_nonneg. lia.
Qed.

(** X1. Whatever sequence of [failure()] and [reset()] calls a new
    [ExponentialBackOff] receives, its cap stays 60, the stored delay is 0 or
    a power of two, and the reported delay lies between 0 and 60. *)
Theorem back_off_run_bounds (cs : list back_off_call) :
  let b := back_off_run cs ExponentialBackOff_init in
  max_delay b = 60
  /\ (_delay b = 0 \/ exists k : nat, _delay b = 2 ^ Z.of_nat k)
  /\ 0 <= current_delay_sec b <= 60.
Proof.
  cbn zeta.
  assert (Hinv : back_off_invariant (back_off_run cs ExponentialBackOff_init)).
  { apply back_off_invariant_run. split; [reflexivity|by left]. }
  pose proof (back_off_invariant_nonneg _ Hinv) as Hnonneg.
  destruct Hinv as [Hmax Hdelay].
  split; [exact Hmax|]. split; [exact Hdelay|].
  rewrite current_delay_sec_min, Hmax. lia.
Qed.

(** X2. On a policy object whose stored delay is not negative, [failure()]
    never lowers the reported delay, and raises it strictly as long as it is
    below the cap. *)
Theorem failure_raises_delay (b : ExponentialBackOff) (Hdelay : 0 <= _delay b) :
  current_delay_sec b <= current_delay_sec (failure b)
  /\ (current_delay_sec b < max_delay b ->
      current_delay_sec b < current_delay_sec (failure b)).
Proof.
  rewrite !current_delay_sec_min, failure_max_delay.
  assert (Hgrow : _delay b < _delay (failure b)).
  { destruct (Z.eq_dec (_delay b) 0) as [H0|Hne].
    - rewrite failure_delay_zero by exact H0. lia.
    - rewrite failure_delay_pos by lia. lia. }
  lia.
Qed.

Lemma failure_raises_delay_witness :
  0 <= _delay (failures 3 ExponentialBackOff_init)
  /\ current_delay_sec (failures 3 ExponentialBackOff_init)
     < current_delay_sec (failure (failures 3 ExponentialBackOff_init)).
Proof.
  assert (H : 0 <= _delay (failures 3 ExponentialBackOff_init))
    by (vm_compute; discriminate).
  split; [exact H|].
  apply (failure_raises_delay (failures 3 ExponentialBackOff_init) H).
  vm_compute. reflexivity.
Defined.

(** X3. From the seventh consecutive failure on, a new policy object
    reports the cap, 60, while the stored delay keeps doubling: after [n]
    failures it is [2^(n-1)]. *)
Theorem back_off_saturates (n : nat) (Hn : (7 <= n)%nat) :
  current_delay_sec (failures n ExponentialBackOff_init) = 60
  /\ _delay (failures n ExponentialBackOff_init) = 2 ^ (Z.of_nat n - 1).
Proof.
  destruct n as [|k]; [lia|].
  replace (Z.of_nat (S k) - 1) with (Z.of_nat k) by lia.
  assert (Hd : _delay (failures (S k) ExponentialBackOff_init) = 2 ^ Z.of_nat k)
    by (by apply failures_delay).
  split; [|exact Hd].
  rewrite current_delay_sec_min, Hd, failures_max_delay.
  assert (2 ^ 6 <= 2 ^ Z.of_nat k) by (apply Z.pow_le_mono_r; lia).
  change (max_delay ExponentialBackOff_init) with 60.
  change (2 ^ 6) with 64 in *. lia.
Qed.

Lemma back_off_saturates_witness :
  current_delay_sec (failures 12 ExponentialBackOff_init) = 60
  /\ _delay (failures 12 ExponentialBackOff_init) = 2048.
Proof.
  assert (H : (7 <= 12)%nat) by lia.
  exact (back_off_saturates 12 H).
Defined.

(** ** Runs of [data_received] *)

Section DataReceivedRuns.

Context {R : Type} `{!MeterReaderBase R} {A : Type}.
Variable message_received : MeterMessageBase -> list A -> list A.

Abbreviation run := (data_received_all message_received).
Abbreviation step := (data_received message_received).

Lemma call_read_readers_other reader data (w : World R A) other :
  other <> reader ->
  readers (snd (call_read reader data w)) other = readers w other.
Proof.
  intros Hne. unfold call_read. destruct (read _ _) as [messages r']. cbn.
  by apply fn_lookup_insert_ne.
Qed.

Lemma probe_readers_other candidates data p (w : World R A) other :
  other ∉ candidates ->
  readers (snd (probe message_received candidates data p w)) other
  = readers w other.
Proof.
  revert p w. induction candidates as [|reader rest IH]; intros p w Hnot; [done|].
  apply not_elem_of_cons in Hnot as [Hne Hrest].
  cbn [probe].
  pose proof (call_read_readers_other reader data w other Hne) as Hread.
  destruct (call_read reader data w) as [messages w1]. cbn [snd] in Hread.
  destruct (_selected_reader (select_if_valid reader messages p)).
  - cbn [snd]. by rewrite forward_readers.
  - by rewrite IH.
Qed.

(** One call keeps a reader that is neither a candidate nor selected out
    of reach, now and afterwards. *)
Lemma data_received_out_of_reach data p (w : World R A) other :
  other ∉ _reader_candidates p ->
  _selected_reader p <> Some other ->
  (readers (snd (step data (p, w))) other = readers w other)
  /\ (other ∉ _reader_candidates (fst (step data (p, w))))
  /\ (_selected_reader (fst (step data (p, w))) <> Some other).
Proof.
  intros Hcand Hsel.
  destruct (_selected_reader p) as [reader|] eqn:Hp.
  - rewrite (data_received_committed _ _ _ _ _ Hp). cbn [fst snd].
    rewrite forward_readers, Hp.
    split; [|by split].
    apply call_read_readers_other. congruence.
  - pose proof (probe_result message_received (_reader_candidates p) data p w Hp)
      as Hres.
    pose proof (probe_readers_other (_reader_candidates p) data p w other Hcand)
      as Hframe.
    unfold data_received. rewrite Hp.
    destruct (probe message_received (_reader_candidates p) data p w) as [p1 w1].
    cbn [fst snd] in *. split; [exact Hframe|].
    destruct Hres as [returns _ _ -> _ _
                     |before after winner returns ms Hsplit _ _ _ -> _ _].
    + rewrite Hp. by split.
    + cbn. split; [apply not_elem_of_nil|].
      intros [= ->]. apply Hcand. rewrite Hsplit. set_solver.
Qed.

Lemma committed_stays data reader p (w : World R A) :
  _selected_reader p = Some reader -> fst (step data (p, w)) = p.
Proof. intros Hsel. by rewrite (data_received_committed _ _ _ _ _ Hsel). Qed.


Lemma data_received_probing_run data p (w : World R A) :
  _selected_reader p = None ->
  step data (p, w) = probe message_received (_reader_candidates p) data p w.
Proof. intros Hnone. unfold data_received. by rewrite Hnone. Qed.


(** X5. [data_received] never reads a reader that is neither among the
    candidates nor selected: its state is the same after any run of
    chunks. In particular, once a reader is selected, no other reader is
    read again. *)
Theorem unreachable_reader_untouched (chunks : list bytes)
    (p : SmartMeterBaseProtocol) (w : World R A) (other : nat)
    (Hcand : other ∉ _reader_candidates p)
    (Hsel : _selected_reader p <> Some other) :
  readers (snd (run chunks (p, w))) other = readers w other.
Proof.
  revert p w Hcand Hsel. induction chunks as [|data rest IH]; intros p w Hcand Hsel.
  - reflexivity.
  - rewrite data_received_all_cons.
    destruct (data_received_out_of_reach data p w other Hcand Hsel)
      as (Hframe & Hcand' & Hsel').
    destruct (step data (p, w)) as [p1 w1]. cbn [fst snd] in *.
    rewrite (IH p1 w1 Hcand' Hsel'). exact Hframe.
Qed.

End DataReceivedRuns.


Lemma unreachable_reader_untouched_witness :
  (1%nat ∉ _reader_candidates (fst payload_after_chunk))
  /\ (_selected_reader (fst payload_after_chunk) <> Some 1%nat)
  /\ (readers (snd payload_after_more) 1%nat
      = readers (snd payload_after_chunk) 1%nat).
Proof.
  assert (Hc : 1%nat ∉ _reader_candidates (fst payload_after_chunk))
    by (vm_compute; apply not_elem_of_nil).
  assert (Hs : _selected_reader (fst payload_after_chunk) <> Some 1%nat)
    by (vm_compute; discriminate).
  split; [exact Hc|]. split; [exact Hs|].
  exact (unreachable_reader_untouched SmartMeterMessagePayloadProtocol.message_received
           [example_junk; example_chunk]
           (fst payload_after_chunk) (snd payload_after_chunk) 1%nat Hc Hs).
Defined.

(** ** What the two concrete protocols put on their queue *)

Lemma message_protocol_delivered messages (q : list MeterMessageBase) :
  delivered SmartMeterMessageProtocol.message_received messages q = q ++ messages.
Proof.
  unfold delivered. revert q.
  induction messages as [|msg rest IH]; intros q; cbn; [by rewrite app_nil_r|].
  rewrite IH. unfold SmartMeterMessageProtocol.message_received, put_nowait.
  by rewrite <- app_assoc.
Qed.

Lemma payload_protocol_received message (q : list bytes) :
  SmartMeterMessagePayloadProtocol.message_received message q
  = q ++ option_list (forwarded_payload message).
Proof.
  unfold SmartMeterMessagePayloadProtocol.message_received, forwarded_payload,
    put_nowait.
  destruct (is_valid message); [|by rewrite app_nil_r].
  destruct (payload message) as [[|b bs]|]; cbn; by rewrite ?app_nil_r.
Qed.

Lemma payload_protocol_delivered messages (q : list bytes) :
  delivered SmartMeterMessagePayloadProtocol.message_received messages q
  = q ++ omap forwarded_payload messages.
Proof.
  unfold delivered. revert q.
  induction messages as [|msg rest IH]; intros q; cbn [fold_left omap list_omap].
  - by rewrite app_nil_r.
  - rewrite IH, payload_protocol_received.
    destruct (forwarded_payload msg); cbn; by rewrite <- ?app_assoc, ?app_nil_r.
Qed.

(** X6. A committed [SmartMeterMessageProtocol] reads each chunk it
    receives with its reader and appends to its queue every message that
    [read] returns, valid or not, in the order returned, and nothing
    else. *)
Theorem message_protocol_queues_every_message (chunks : list bytes) (reader : nat)
    (p : SmartMeterBaseProtocol) {R : Type} `{!MeterReaderBase R}
    (w : World R MeterMessageBase)
    (Hsel : _selected_reader p = Some reader) :
  let returns := fst (reader_run (readers w reader) chunks) in
  let final := data_received_all SmartMeterMessageProtocol.message_received
                 chunks (p, w) in
  length returns = length chunks
  /\ calls (snd final) = calls w ++ routed reader chunks returns
  /\ queue (snd final) = queue w ++ concat returns
  /\ readers (snd final) reader = snd (reader_run (readers w reader) chunks).
Proof.
  cbn zeta.
  destruct (committed_exact SmartMeterMessageProtocol.message_received
              chunks reader p w Hsel) as (_ & Hcalls & Hqueue & Hreaders).
  split; [apply reader_run_length|]. split; [exact Hcalls|].
  split; [by rewrite Hqueue, message_protocol_delivered|].
  by rewrite Hreaders, fn_lookup_insert.
Qed.

(** X7. A committed [SmartMeterMessagePayloadProtocol] reads each chunk it
    receives with its reader and appends to its queue the payloads of the
    valid messages with a non-empty payload among those that [read]
    returns, in the order returned, and nothing else. *)
Theorem payload_protocol_queues_valid_payloads (chunks : list bytes) (reader : nat)
    (p : SmartMeterBaseProtocol) {R : Type} `{!MeterReaderBase R}
    (w : World R bytes)
    (Hsel : _selected_reader p = Some reader) :
  let returns := fst (reader_run (readers w reader) chunks) in
  let final := data_received_all SmartMeterMessagePayloadProtocol.message_received
                 chunks (p, w) in
  length returns = length chunks
  /\ calls (snd final) = calls w ++ routed reader chunks returns
  /\ queue (snd final) = queue w ++ omap forwarded_payload (concat returns)
  /\ readers (snd final) reader = snd (reader_run (readers w reader) chunks).
Proof.
  cbn zeta.
  destruct (committed_exact SmartMeterMessagePayloadProtocol.message_received
              chunks reader p w Hsel) as (_ & Hcalls & Hqueue & Hreaders).
  split; [apply reader_run_length|]. split; [exact Hcalls|].
  split; [by rewrite Hqueue, payload_protocol_delivered|].
  by rewrite Hreaders, fn_lookup_insert.
Qed.

Lemma message_protocol_queues_every_message_witness :
  _selected_reader (fst after_chunk) = Some 0%nat
  /\ queue (snd (data_received_all SmartMeterMessageProtocol.message_received
                   [example_junk; example_chunk] after_chunk))
     = queue (snd after_chunk)
       ++ [frame_message Byte.x0a [Byte.x41; Byte.x42];
           frame_message Byte.x0a [Byte.x41]].
Proof.
  assert (Hsel : _selected_reader (fst after_chunk) = Some 0%nat) by reflexivity.
  split; [exact Hsel|].
  destruct (message_protocol_queues_every_message [example_junk; example_chunk]
              0%nat (fst after_chunk) (snd after_chunk) Hsel)
    as (_ & _ & Hqueue & _).
  exact Hqueue.
Defined.

Lemma payload_protocol_queues_valid_payloads_witness :
  _selected_reader (fst payload_after_chunk) = Some 0%nat
  /\ queue (snd payload_after_more)
     = queue (snd payload_after_chunk) ++ [[Byte.x41; Byte.x42]; [Byte.x41]].
Proof.
  assert (Hsel : _selected_reader (fst payload_after_chunk) = Some 0%nat)
    by reflexivity.
  split; [exact Hsel|].
  destruct (payload_protocol_queues_valid_payloads [example_junk; example_chunk]
              0%nat (fst payload_after_chunk) (snd payload_after_chunk) Hsel)
    as (_ & _ & Hqueue & _).
  exact Hqueue.
Defined.

(** ** connection_made *)

Lemma info_is_set_host host port :
  info_is_set (Some ("host " +:+ host +:+ " and port " +:+ port)) = true.
Proof. reflexivity. Qed.

Lemma info_is_set_name name : name <> "" -> info_is_set (Some name) = true.
Proof.
  intros Hne. cbn. destruct (String.eqb_spec name ""); [contradiction|reflexivity].
Qed.

(** X8. [connection_made] raises only when the transport has no [serial]
    attribute and a one-item peer name. When it returns it has stored the
    transport and left a non-empty description, provided [str(transport)]
    is not empty: the [serial] attribute if it prints non-empty, else
    ["host H and port P"] from a peer name of two or more items, else the
    description already recorded, else [str(transport)]. Nothing else of
    the protocol changes. *)
Theorem connection_made_describes (transport : BaseTransport)
    (attrs : transport_attributes) (p : SmartMeterBaseProtocol)
    (Hname : transport_name transport <> "") :
  let p' := fst (connection_made transport attrs p) in
  ((exists e, snd (connection_made transport attrs p) = inl e)
   <-> serial attrs = None /\ exists item, peername attrs = Some [item])
  /\ _transport p' = Some transport
  /\ (snd (connection_made transport attrs p) = inr tt ->
      info_is_set (_transport_info p') = true
      /\ _transport_info p'
         = match serial attrs, peername attrs with
           | Some s, _ =>
               if info_is_set (Some s) then Some s
               else Some (transport_name transport)
           | None, Some (host :: port :: _) =>
               Some ("host " +:+ host +:+ " and port " +:+ port)
           | None, _ =>
               if info_is_set (_transport_info p) then _transport_info p
               else Some (transport_name transport)
           end)
  /\ _done p' = _done p
  /\ _reader_candidates p' = _reader_candidates p
  /\ _selected_reader p' = _selected_reader p
  /\ instance_id p' = instance_id p.
Proof.
  cbn zeta. unfold connection_made, _set_transport_info.
  pose proof (info_is_set_name _ Hname) as Hset.
  destruct p as [done id cands sel tr info].
  cbn [set_transport _transport _done instance_id _reader_candidates
       _selected_reader _transport_info].
  destruct (serial attrs) as [s|].
  - cbn -[info_is_set String.append].
    destruct (info_is_set (Some s)) eqn:Hs; cbn -[info_is_set String.append].
    + split; [split; [intros [e He]; discriminate He|intros [Hs' _]; discriminate Hs']|].
      by repeat split.
    + split; [split; [intros [e He]; discriminate He|intros [Hs' _]; discriminate Hs']|].
      by repeat split.
  - destruct (peername attrs) as [[|host [|port more]]|];
      cbn -[info_is_set String.append].
    + destruct (info_is_set info) eqn:Hp; cbn -[info_is_set String.append];
        (split; [split; [intros [e He]; discriminate He
                        |intros [_ [item Hi]]; discriminate Hi]|]);
        by repeat split.
    + split; [split; [intros _; split; [reflexivity|by exists host]
                     |intros _; by eexists]|].
      split; [reflexivity|]. split; [intros H; discriminate H|]. by repeat split.
    + rewrite info_is_set_host. cbn -[info_is_set String.append].
      split; [split; [intros [e He]; discriminate He
                     |intros [_ [item Hi]]; discriminate Hi]|].
      split; [reflexivity|]. split; [intros _; by rewrite info_is_set_host|].
      by repeat split.
    + destruct (info_is_set info) eqn:Hp; cbn -[info_is_set String.append];
        (split; [split; [intros [e He]; discriminate He
                        |intros [_ [item Hi]]; discriminate Hi]|]);
        by repeat split.
Qed.

Lemma connection_made_describes_witness :
  transport_name example_transport <> ""
  /\ _transport_info (fst (connection_made example_transport example_tcp_attributes
                             example_protocol))
     = Some "host 192.168.1.20 and port 3001"
  /\ _transport_info (fst (connection_made example_transport example_serial_attributes
                             example_protocol))
     = Some "Serial<id=0x1, open=True>(port='/dev/ttyUSB0')"
  /\ exists e, snd (connection_made example_transport example_short_peername
                      example_protocol) = inl e.
Proof.
  assert (Hname : transport_name example_transport <> "") by discriminate.
  split; [exact Hname|].
  destruct (connection_made_describes example_transport example_tcp_attributes
              example_protocol Hname) as (_ & _ & Htcp & _).
  destruct (connection_made_describes example_transport example_serial_attributes
              example_protocol Hname) as (_ & _ & Hserial & _).
  destruct (connection_made_describes example_transport example_short_peername
              example_protocol Hname) as (Hraise & _).
  split; [exact (proj2 (Htcp eq_refl))|].
  split; [exact (proj2 (Hserial eq_refl))|].
  apply Hraise. split; [reflexivity|]. by eexists.
Defined.

(** ** connection_lost on a future that is not pending *)

(** X9. When the done future is no longer pending (it was completed by an
    earlier [connection_lost], or cancelled by whoever awaited it),
    [connection_lost] still calls [close()] on a transport it holds, then
    raises [InvalidStateError] from [set_result] and leaves the future as
    it was. *)
Theorem connection_lost_not_pending (exc : option Exception)
    (p : SmartMeterBaseProtocol) (log : list call)
    (Hdone : _done p <> Pending) :
  snd (connection_lost exc (p, log)) = inl InvalidStateError
  /\ _done (fst (fst (connection_lost exc (p, log)))) = _done p
  /\ snd (fst (connection_lost exc (p, log)))
     = log
       ++ match _transport p with
          | Some transport => [TransportClose transport]
          | None => []
          end
       ++ [DoneSetResult].
Proof.
  unfold connection_lost.
  destruct (_transport p) as [transport|] eqn:Ht.
  - destruct (close_raises transport) as [ex|];
      cbn [set_transport _done];
      destruct (_done p) eqn:Hd; try congruence;
      cbn; rewrite ?Hd, <- ?app_assoc; by repeat split.
  - destruct (_done p) eqn:Hd; try congruence; cbn; rewrite ?Hd; by repeat split.
Qed.

Lemma connection_lost_not_pending_witness :
  let once := fst (connection_lost None (example_protocol, [])) in
  _done (fst once) <> Pending
  /\ snd (connection_lost None once) = inl InvalidStateError.
Proof.
  cbn zeta.
  assert (H : _done (fst (fst (connection_lost None (example_protocol, []))))
              <> Pending) by discriminate.
  split; [exact H|].
  exact (proj1 (connection_lost_not_pending None
                  (fst (fst (connection_lost None (example_protocol, []))))
                  (snd (fst (connection_lost None (example_protocol, [])))) H)).
Defined.

(** ** The life of one protocol object *)

Section ProtocolLifecycle.

Context {R : Type} `{!MeterReaderBase R} {A : Type}.
Variable message_received : MeterMessageBase -> list A -> list A.

Lemma select_reader_connection reader p :
  _done (select_reader reader p) = _done p
  /\ _transport (select_reader reader p) = _transport p
  /\ _transport_info (select_reader reader p) = _transport_info p
  /\ instance_id (select_reader reader p) = instance_id p.
Proof. by repeat split. Qed.

(** [data_received] leaves the connection side of the protocol alone. *)
Lemma data_received_connection data p (w : World R A) :
  let p' := fst (data_received message_received data (p, w)) in
  _done p' = _done p /\ _transport p' = _transport p
  /\ _transport_info p' = _transport_info p /\ instance_id p' = instance_id p.
Proof.
  cbn zeta. destruct (_selected_reader p) as [reader|] eqn:Hsel.
  - by rewrite (committed_stays message_received data reader p w Hsel).
  - pose proof (probe_result message_received (_reader_candidates p) data p w Hsel)
      as Hres.
    rewrite (data_received_probing_run message_received data p w Hsel).
    destruct Hres as [returns _ _ -> _ _|before after winner returns ms _ _ _ _ -> _ _].
    + by repeat split.
    + apply select_reader_connection.
Qed.

Lemma run_connection chunks p (w : World R A) :
  let p' := fst (data_received_all message_received chunks (p, w)) in
  _done p' = _done p /\ _transport p' = _transport p
  /\ _transport_info p' = _transport_info p /\ instance_id p' = instance_id p.
Proof.
  cbn zeta. revert p w. induction chunks as [|data rest IH]; intros p w.
  - by repeat split.
  - rewrite data_received_all_cons.
    pose proof (data_received_connection data p w) as Hstep. cbn zeta in Hstep.
    destruct (data_received message_received data (p, w)) as [p1 w1].
    cbn [fst] in Hstep.
    destruct (IH p1 w1) as (H1 & H2 & H3 & H4).
    destruct Hstep as (G1 & G2 & G3 & G4).
    repeat split; congruence.
Qed.

Lemma forward_data_calls messages (w : World R A) :
  exists new, calls (forward message_received messages w) = calls w ++ new
              /\ Forall (fun c => is_data_call c = true) new.
Proof.
  exists (map MessageReceived messages). split; [apply forward_calls|].
  induction messages as [|m ms IH]; cbn; by constructor.
Qed.

Lemma probe_data_calls candidates data p (w : World R A) :
  exists new, calls (snd (probe message_received candidates data p w)) = calls w ++ new
              /\ Forall (fun c => is_data_call c = true) new.
Proof.
  revert p w. induction candidates as [|reader rest IH]; intros p w.
  - exists []. split; [by rewrite app_nil_r|constructor].
  - cbn [probe]. pose proof (call_read_calls reader data w) as Hread.
    destruct (call_read reader data w) as [messages w1]. cbn [fst snd] in Hread.
    destruct (_selected_reader (select_if_valid reader messages p)).
    + cbn [snd]. destruct (forward_data_calls messages w1) as (new & Hnew & Hall).
      exists (ReaderRead reader data messages :: new).
      split; [rewrite Hnew, Hread; by rewrite <- app_assoc|by constructor].
    + destruct (IH (select_if_valid reader messages p) w1) as (new & Hnew & Hall).
      exists (ReaderRead reader data messages :: new).
      split; [rewrite Hnew, Hread; by rewrite <- app_assoc|by constructor].
Qed.

Lemma data_received_data_calls data p (w : World R A) :
  exists new, calls (snd (data_received message_received data (p, w))) = calls w ++ new
              /\ Forall (fun c => is_data_call c = true) new.
Proof.
  unfold data_received. destruct (_selected_reader p) as [reader|].
  - pose proof (call_read_calls reader data w) as Hread.
    destruct (call_read reader data w) as [messages w1]. cbn [fst snd] in Hread |- *.
    destruct (forward_data_calls messages w1) as (new & Hnew & Hall).
    exists (ReaderRead reader data messages :: new).
    split; [rewrite Hnew, Hread; by rewrite <- app_assoc|by constructor].
  - apply probe_data_calls.
Qed.

Lemma run_data_calls chunks p (w : World R A) :
  exists new,
    calls (snd (data_received_all message_received chunks (p, w))) = calls w ++ new
    /\ Forall (fun c => is_data_call c = true) new.
Proof.
  revert p w. induction chunks as [|data rest IH]; intros p w.
  - exists []. split; [by rewrite app_nil_r|constructor].
  - rewrite data_received_all_cons.
    destruct (data_received_data_calls data p w) as (new1 & Hnew1 & Hall1).
    destruct (data_received message_received data (p, w)) as [p1 w1].
    cbn [snd] in Hnew1.
    destruct (IH p1 w1) as (new2 & Hnew2 & Hall2).
    exists (new1 ++ new2).
    split; [rewrite Hnew2, Hnew1; by rewrite <- app_assoc|by apply Forall_app].
Qed.

Lemma data_calls_without_close (new : list call) t :
  Forall (fun c => is_data_call c = true) new -> TransportClose t ∉ new.
Proof.
  induction 1 as [|c new Hc _ IH]; intros Hin; [by apply elem_of_nil in Hin|].
  apply elem_of_cons in Hin as [<-|Hin]; [discriminate Hc|by apply IH].
Qed.

(** X10. A protocol object that is created, given a transport by
    [connection_made], fed any chunks and then told that the connection is
    lost ends with its done future finished and no exception;
    [data_received] never calls [close()], [connection_lost] calls it once,
    on the transport given to [connection_made]; the transport is dropped
    when that call returns and kept when it raises. *)
Theorem protocol_lifecycle (candidates : list nat) (counter : nat)
    (transport : BaseTransport) (attrs : transport_attributes)
    (chunks : list bytes) (exc : option Exception) (w : World R A) :
  let connected := fst (connection_made transport attrs
                          (fst (SmartMeterBaseProtocol_init candidates counter))) in
  let fed := data_received_all message_received chunks (connected, w) in
  let lost := connection_lost exc (fst fed, calls (snd fed)) in
  snd lost = inr tt
  /\ _done (fst (fst lost)) = Finished
  /\ snd (fst lost) = calls (snd fed) ++ [TransportClose transport; DoneSetResult]
  /\ (forall t, TransportClose t ∈ calls (snd fed) -> TransportClose t ∈ calls w)
  /\ _transport (fst (fst lost))
     = match close_raises transport with
       | Some _ => Some transport
       | None => None
       end.
Proof.
  cbn zeta.
  set (connected := fst (connection_made transport attrs
                           (fst (SmartMeterBaseProtocol_init candidates counter)))).
  assert (Hconn : _transport connected = Some transport /\ _done connected = Pending).
  { subst connected. unfold connection_made, _set_transport_info.
    cbn [SmartMeterBaseProtocol_init fst set_transport _transport].
    destruct (serial attrs) as [s|]; [|destruct (peername attrs) as [[|h [|q more]]|]];
      cbn [set_transport_info _transport_info];
      repeat match goal with
             | |- context [if ?b then _ else _] => destruct b
             end; by split. }
  destruct Hconn as [Ht Hd].
  destruct (run_connection chunks connected w) as (Hd' & Ht' & _ & _).
  assert (Hclosed : forall t,
             TransportClose t ∈ calls (snd (data_received_all message_received
                                              chunks (connected, w))) ->
             TransportClose t ∈ calls w).
  { intros t Hin.
    destruct (run_data_calls chunks connected w) as (new & Hcalls & Hall).
    rewrite Hcalls in Hin. apply elem_of_app in Hin as [Hin|Hin]; [exact Hin|].
    exfalso. by apply (data_calls_without_close new t Hall). }
  destruct (data_received_all message_received chunks (connected, w)) as [p2 w2].
  cbn [fst snd] in *.
  unfold connection_lost. rewrite Ht', Ht.
  destruct (close_raises transport) as [ex|]; cbn [set_transport _done];
    rewrite Hd', Hd; cbn; rewrite ?Ht', <- ?app_assoc; by repeat split.
Qed.

End ProtocolLifecycle.

(** X11. Protocol objects created one after the other get consecutive
    instance ids starting at the class counter, which ends up advanced by
    their number; each starts with its own candidates, no selected reader,
    no transport and a pending done future. *)
Theorem create_protocols_ids (candidates : list (list nat)) (counter : nat) :
  snd (create_protocols candidates counter) = (counter + length candidates)%nat
  /\ map instance_id (fst (create_protocols candidates counter))
     = seq counter (length candidates)
  /\ map _reader_candidates (fst (create_protocols candidates counter)) = candidates
  /\ Forall (fun p => _selected_reader p = None /\ _transport p = None
                      /\ _done p = Pending)
       (fst (create_protocols candidates counter)).
Proof.
  revert counter. induction candidates as [|cs rest IH]; intros counter.
  - cbn. repeat split; [lia|constructor].
  - cbn [create_protocols SmartMeterBaseProtocol_init].
    destruct (IH (S counter)) as (Hcount & Hids & Hcands & Hall).
    destruct (create_protocols rest (S counter)) as [ps counter'].
    cbn [fst snd map length seq instance_id _reader_candidates] in *.
    split; [lia|]. split; [by rewrite Hids|]. split; [by rewrite Hcands|].
    by constructor.
Qed.

(** ** close *)

Lemma close_sets_flag st : _is_closing (fst (fst (close st))) = true.
Proof.
  destruct st as [m log]. unfold close. cbn [set_is_closing _connection].
  destruct (_connection m) as [[transport proto]|]; [|reflexivity].
  by destruct (close_raises transport).
Qed.

(** X12. [close()] always sets the closing flag and leaves back-off policy
    and circuit breaker alone. It calls [close()] on the transport of a
    stored connection, and on nothing otherwise. When it returns, no
    connection is stored, and calling it again changes nothing and calls
    nothing. *)
Theorem close_stops_and_repeats_safely (st : manager_state) :
  _is_closing (fst (fst (close st))) = true
  /\ back_off_connect_error (fst (fst (close st))) = back_off_connect_error (fst st)
  /\ snd (fst (close st))
     = snd st ++ match _connection (fst st) with
                 | Some (transport, _) => [ConnectionTransportClose transport]
                 | None => []
                 end
  /\ (snd (close st) = inr tt ->
      _connection (fst (fst (close st))) = None
      /\ close (fst (close st)) = (fst (close st), inr tt)).
Proof.
  destruct st as [[f c closing b th sl last recent] log]. unfold close.
  cbn [set_is_closing _connection fst snd].
  destruct c as [[transport proto]|].
  - destruct (close_raises transport) as [ex|]; cbn;
      (split; [reflexivity|]); (split; [reflexivity|]); (split; [reflexivity|]).
    + intros H. discriminate H.
    + intros _. split; reflexivity.
  - cbn. rewrite app_nil_r. repeat split; reflexivity.
Qed.

(** X13. [close()] raises exactly when a connection is stored and its
    transport's [close()] raises, and it raises that exception. The
    closing flag is set all the same, but the connection stays stored, so
    that a further [close()] calls the transport's [close()] again. *)
Theorem close_raises_with_transport (st : manager_state) (ex : Exception) :
  (snd (close st) = inl ex
   <-> exists transport protocol,
         _connection (fst st) = Some (transport, protocol)
         /\ close_raises transport = Some ex)
  /\ (snd (close st) = inl ex ->
      _is_closing (fst (fst (close st))) = true
      /\ _connection (fst (fst (close st))) = _connection (fst st)
      /\ snd (close (fst (close st))) = inl ex
      /\ snd (fst (close (fst (close st))))
         = snd (fst (close st))
           ++ match _connection (fst st) with
              | Some (transport, _) => [ConnectionTransportClose transport]
              | None => []
              end).
Proof.
  destruct st as [[f c closing b th sl last recent] log]. unfold close.
  cbn [set_is_closing _connection fst snd].
  destruct c as [[transport proto]|].
  - destruct (close_raises transport) as [ex'|] eqn:Hclose; cbn [fst snd].
    + split.
      * split.
        -- intros [= ->]. by exists transport, proto.
        -- intros (t & q & [= <- <-] & Hex). congruence.
      * intros [= ->]. cbn. rewrite Hclose. cbn. by repeat split.
    + split.
      * split; [intros H; discriminate H|].
        intros (t & q & [= <- <-] & Hex). congruence.
      * intros H. discriminate H.
  - cbn. split.
    + split; [intros H; discriminate H|intros (t & q & H & _); discriminate H].
    + intros H. discriminate H.
Qed.

Lemma close_raises_with_transport_witness :
  snd (close (example_stuck_manager, [])) = inl (OSError "device disconnected")
  /\ _connection (fst (fst (close (example_stuck_manager, []))))
     = Some (example_broken_transport, example_protocol).
Proof.
  destruct (close_raises_with_transport (example_stuck_manager, [])
              (OSError "device disconnected")) as [Hiff Hthen].
  assert (Hraise : snd (close (example_stuck_manager, []))
                   = inl (OSError "device disconnected")).
  { apply Hiff. by exists example_broken_transport, example_protocol. }
  split; [exact Hraise|].
  destruct (Hthen Hraise) as (_ & Hconn & _). exact Hconn.
Defined.

(** ** The sleep before a connect attempt *)

Lemma get_back_off_time_max m :
  _get_back_off_time m
  = Z.max (current_delay_sec (back_off_connect_error m))
          (if _connection_lost_sleep_before_reconnect m
           then connection_lost_back_off_sleep_sec m else 0).
Proof.
  unfold _get_back_off_time.
  destruct (_connection_lost_sleep_before_reconnect m).
  - by rewrite orb_true_r.
  - rewrite orb_false_r.
    destruct (Z.ltb_spec 0 (current_delay_sec (back_off_connect_error m))); lia.
Qed.

(** X14. With a back-off policy whose stored delay and cap are not
    negative and a sleep constant that is not negative, the sleep before a
    connect attempt is never negative and never more than the larger of the
    cap and the sleep constant; it is 0 exactly when no connect error is
    pending and either the last disconnect was not recent or the sleep
    constant is 0. *)
Theorem back_off_time_bounds (m : ConnectionManager)
    (Hdelay : 0 <= _delay (back_off_connect_error m))
    (Hcap : 0 <= max_delay (back_off_connect_error m))
    (Hsleep : 0 <= connection_lost_back_off_sleep_sec m) :
  0 <= _get_back_off_time m
       <= Z.max (max_delay (back_off_connect_error m))
                (connection_lost_back_off_sleep_sec m)
  /\ (_get_back_off_time m = 0
      <-> current_delay_sec (back_off_connect_error m) = 0
          /\ (_connection_lost_sleep_before_reconnect m = false
              \/ connection_lost_back_off_sleep_sec m = 0)).
Proof.
  rewrite get_back_off_time_max, current_delay_sec_min.
  destruct (_connection_lost_sleep_before_reconnect m).
  - split; [lia|]. split.
    + intros H. split; [lia|]. right. lia.
    + intros [H [H'|H']]; [discriminate H'|lia].
  - split; [lia|]. split.
    + intros H. split; [lia|]. by left.
    + intros [H _]. lia.
Qed.

Lemma back_off_time_bounds_witness :
  0 <= _get_back_off_time (after_failures 9 example_factory) <= 60
  /\ _get_back_off_time (initial_manager example_factory) = 0.
Proof.
  assert (H1 : 0 <= _delay (back_off_connect_error (after_failures 9 example_factory)))
    by (vm_compute; discriminate).
  assert (H2 : 0 <= max_delay (back_off_connect_error (after_failures 9 example_factory)))
    by (vm_compute; discriminate).
  assert (H3 : 0 <= connection_lost_back_off_sleep_sec (after_failures 9 example_factory))
    by (vm_compute; discriminate).
  split.
  - exact (proj1 (back_off_time_bounds (after_failures 9 example_factory) H1 H2 H3)).
  - assert (G1 : 0 <= _delay (back_off_connect_error (initial_manager example_factory)))
      by (vm_compute; discriminate).
    apply (back_off_time_bounds (initial_manager example_factory) G1 H2 H3).
    split; [reflexivity|by left].
Defined.

(** ** Successive connect attempts *)

Lemma after_failures_sleep k f :
  _get_back_off_time (after_failures k f) = retry_sleep k.
Proof.
  rewrite get_back_off_time_max. cbn [after_failures set_back_off initial_manager
    back_off_connect_error _connection_lost_sleep_before_reconnect].
  rewrite current_delay_sec_min, failures_max_delay.
  destruct k as [|j]; [reflexivity|].
  rewrite failures_delay by reflexivity.
  change (max_delay ExponentialBackOff_init) with 60. cbn [retry_sleep].
  assert (0 < 2 ^ Z.of_nat j) by (apply Z.pow_pos_nonneg; lia). lia.
Qed.

Lemma retry_sleep_positive j : 0 < retry_sleep (S j).
Proof.
  cbn [retry_sleep].
  assert (0 < 2 ^ Z.of_nat j) by (apply Z.pow_pos_nonneg; lia). lia.
Qed.

(** One refused attempt on the manager that has seen [k] of them. *)
Lemma refused_attempt k f log env :
  refused env ->
  _try_connect env (after_failures k f, log)
  = ((after_failures (S k) f, log ++ refused_calls k), inr tt).
Proof.
  intros (Hcancel & Hsleep & Hconn & ex & Hfactory).
  unfold _try_connect. rewrite after_failures_sleep.
  destruct k as [|j].
  - cbn [retry_sleep]. change (0 <? 0) with false. cbn iota.
    cbn [after_failures set_back_off initial_manager _is_closing negb].
    rewrite Hconn, Hfactory. cbn.
    by rewrite <- app_assoc.
  - pose proof (retry_sleep_positive j) as Hpos.
    apply Z.ltb_lt in Hpos. rewrite Hpos, Hsleep, Hcancel.
    cbn [interfered fold_left after_failures set_back_off initial_manager
         _is_closing negb].
    rewrite Hconn, Hfactory. cbn -[retry_sleep].
    by rewrite <- !app_assoc.
Qed.

Lemma refused_attempts_from k f log envs :
  Forall refused envs ->
  connect_attempts envs (after_failures k f, log)
  = ((after_failures (k + length envs) f,
      log ++ concat (map refused_calls (seq k (length envs)))), inr tt).
Proof.
  intros Hall. revert k log.
  induction Hall as [|env envs Henv _ IH]; intros k log.
  - cbn. by rewrite Nat.add_0_r, app_nil_r.
  - cbn [connect_attempts]. rewrite (refused_attempt k f log env Henv).
    rewrite IH. cbn [length seq map concat].
    by rewrite <- app_assoc, Nat.add_succ_r.
Qed.

(** X15. On a new manager, connect attempts that are refused one after
    the other (the factory raises, nothing is cancelled, nobody closes)
    all return normally. Attempt number [k], counted from 0, does not sleep
    when [k = 0] and sleeps [min(2^(k-1), 60)] seconds otherwise, then
    awaits the factory and records the failure; after [n] attempts the
    next sleep is [min(2^(n-1), 60)]. *)
Theorem refused_attempts_schedule (f : AsyncConnectionFactory)
    (envs : list connect_environment) (log : list manager_call)
    (Hrefused : Forall refused envs) :
  connect_attempts envs (initial_manager f, log)
  = ((after_failures (length envs) f,
      log ++ concat (map refused_calls (seq 0 (length envs)))), inr tt)
  /\ _get_back_off_time (after_failures (length envs) f)
     = retry_sleep (length envs).
Proof.
  split; [|apply after_failures_sleep].
  exact (refused_attempts_from 0 f log envs Hrefused).
Qed.

Lemma refused_attempts_schedule_witness :
  Forall refused [example_refused; example_refused; example_refused; example_refused]
  /\ snd (fst (connect_attempts
                 [example_refused; example_refused; example_refused; example_refused]
                 (initial_manager example_factory, [])))
     = [FactoryCall; BackOffFailure;
        Sleep 1; FactoryCall; BackOffFailure;
        Sleep 2; FactoryCall; BackOffFailure;
        Sleep 4; FactoryCall; BackOffFailure]
  /\ _get_back_off_time
       (fst (fst (connect_attempts
                    [example_refused; example_refused; example_refused; example_refused]
                    (initial_manager example_factory, [])))) = 8.
Proof.
  assert (Hone : refused example_refused).
  { repeat split. by exists (OSError "connection refused"). }
  assert (Hall : Forall refused
                   [example_refused; example_refused; example_refused; example_refused])
    by (repeat (apply List.Forall_cons; [exact Hone|]); apply List.Forall_nil).
  split; [exact Hall|].
  destruct (refused_attempts_schedule example_factory _ [] Hall) as [Hrun Hnext].
  rewrite Hrun. split; [reflexivity|exact Hnext].
Defined.

(** [close] assigns the closing flag and the connection only;
    [_try_connect] assigns those and the back-off policy only. *)
Lemma manager_fields_identity m :
  set_connection (_connection m)
    (set_back_off (back_off_connect_error m) (set_is_closing (_is_closing m) m)) = m.
Proof. by destruct m. Qed.

Lemma connect_attempts_frame envs st :
  exists c b closing,
    fst (fst (connect_attempts envs st))
    = set_connection c (set_back_off b (set_is_closing closing (fst st))).
Proof.
  revert st. induction envs as [|env rest IH]; intros st.
  - cbn. exists (_connection (fst st)), (back_off_connect_error (fst st)),
      (_is_closing (fst st)). by rewrite manager_fields_identity.
  - cbn [connect_attempts].
    destruct (try_connect_frame env st) as (c1 & b1 & k1 & Hstep).
    destruct (_try_connect env st) as [st1 [e|u]]; cbn [fst] in Hstep.
    + cbn [fst]. by exists c1, b1, k1.
    + destruct (IH st1) as (c2 & b2 & k2 & Hrest).
      rewrite Hrest, Hstep. by exists c2, b2, k2.
Qed.

(** Other code finds nothing to close on a manager without connection:
    it moves the flag only. *)
Lemma interfered_without_connection during m log :
  _connection m = None ->
  interfered during (m, log)
  = (set_is_closing (flag_after during (_is_closing m)) m, log).
Proof.
  intros Hnone.
  destruct (interfered_frame during (m, log)) as (c & k & new & E & _ & _ & H & _).
  destruct (H Hnone) as (-> & -> & ->). rewrite E. cbn [fst snd].
  rewrite app_nil_r. f_equal. destruct m. cbn in Hnone. by subst.
Qed.

(** X16. A connect attempt on a manager that is not closing and holds no
    connection, whose sleep (if any) ends with the closing flag clear and
    whose factory returns a connection, returns normally with that
    connection stored and the back-off policy reset. This is so also when
    [close()] is called while the factory is awaited: [close()] finds no
    connection to close, and the attempt stores the new connection
    afterwards, without a [close()] on its transport; the closing flag is
    then as the other code left it (clear again once [connect_loop], woken
    by the [close()], has returned). *)
Theorem try_connect_success (env : connect_environment) (m : ConnectionManager)
    (log : list manager_call) (connection : MeterTransportProtocol)
    (Hnone : _connection m = None)
    (Hopen : _is_closing m = false)
    (Hsleep : 0 < _get_back_off_time m ->
              sleep_cancelled env = false
              /\ flag_after (during_sleep env) false = false)
    (Hfactory : factory_outcome env = inr connection) :
  _try_connect env (m, log)
  = ((set_back_off (reset (back_off_connect_error m))
        (set_connection (Some connection)
           (set_is_closing (flag_after (during_connect env) false) m)),
      log ++ (if 0 <? _get_back_off_time m then [Sleep (_get_back_off_time m)] else [])
          ++ [FactoryCall; BackOffReset]),
     inr tt).
Proof.
  assert (Hsame : set_is_closing false m = m).
  { destruct m. cbn in Hopen. by subst. }
  unfold _try_connect.
  destruct (Z.ltb_spec 0 (_get_back_off_time m)) as [Hpos|Hzero].
  - destruct (Hsleep Hpos) as [-> Hflag].
    rewrite (interfered_without_connection _ _ _ Hnone), Hopen, Hflag, Hsame, Hopen.
    cbn [negb].
    rewrite (interfered_without_connection _ _ _ Hnone), Hopen, Hfactory.
    cbn. by rewrite <- !app_assoc.
  - rewrite Hopen. cbn [negb].
    rewrite (interfered_without_connection _ _ _ Hnone), Hopen, Hfactory.
    cbn. by rewrite <- !app_assoc.
Qed.

Lemma try_connect_success_witness :
  _connection example_manager = None
  /\ _is_closing example_manager = false
  /\ let m' := fst (fst (_try_connect example_late_close (example_manager, []))) in
     _connection m' = Some (example_transport, example_protocol)
     /\ _is_closing m' = false
     /\ _delay (back_off_connect_error m') = 0
     /\ snd (fst (_try_connect example_late_close (example_manager, [])))
        = [Sleep 2; FactoryCall; BackOffReset].
Proof.
  assert (Hnone : _connection example_manager = None) by reflexivity.
  assert (Hopen : _is_closing example_manager = false) by reflexivity.
  assert (Hsleep : 0 < _get_back_off_time example_manager ->
                   sleep_cancelled example_late_close = false
                   /\ flag_after (during_sleep example_late_close) false = false)
    by (intros _; split; reflexivity).
  split; [exact Hnone|]. split; [exact Hopen|]. cbn zeta.
  rewrite (try_connect_success example_late_close example_manager []
             (example_transport, example_protocol) Hnone Hopen Hsleep eq_refl).
  repeat split; reflexivity.
Defined.

(** X17. A connect attempt on a manager that is closing and holds no
    connection, and whose closing flag is still set when its sleep (if
    any) is over, awaits no factory and changes nothing; but it first
    sleeps the whole back-off time when that is positive, and raises
    [CancelledError] if that sleep is cancelled. *)
Theorem try_connect_when_closing (env : connect_environment) (m : ConnectionManager)
    (log : list manager_call)
    (Hnone : _connection m = None)
    (Hclosing : _is_closing m = true)
    (Hstays : 0 < _get_back_off_time m ->
              flag_after (during_sleep env) true = true) :
  _try_connect env (m, log)
  = ((m, log ++ (if 0 <? _get_back_off_time m
                 then [Sleep (_get_back_off_time m)] else [])),
     if (0 <? _get_back_off_time m) && sleep_cancelled env
     then inl CancelledError else inr tt).
Proof.
  unfold _try_connect.
  assert (Hsame : set_is_closing true m = m).
  { destruct m as [f c closing b th sl last recent]. cbn in Hclosing. by subst. }
  destruct (Z.ltb_spec 0 (_get_back_off_time m)) as [Hpos|Hzero].
  - rewrite (interfered_without_connection _ _ _ Hnone), Hclosing, (Hstays Hpos),
      Hsame.
    destruct (sleep_cancelled env); cbn [andb]; [reflexivity|].
    by rewrite Hclosing.
  - cbn [andb]. rewrite Hclosing. cbn [negb]. by rewrite app_nil_r.
Qed.

Lemma try_connect_when_closing_witness :
  let closing := set_is_closing true example_manager in
  _connection closing = None
  /\ _is_closing closing = true
  /\ _try_connect example_refused (closing, []) = ((closing, [Sleep 2]), inr tt).
Proof.
  cbn zeta.
  assert (Hnone : _connection (set_is_closing true example_manager) = None)
    by reflexivity.
  assert (Hclosing : _is_closing (set_is_closing true example_manager) = true)
    by reflexivity.
  assert (Hstays : 0 < _get_back_off_time (set_is_closing true example_manager) ->
                   flag_after (during_sleep example_refused) true = true)
    by (intros _; reflexivity).
  split; [exact Hnone|]. split; [exact Hclosing|].
  exact (try_connect_when_closing example_refused
           (set_is_closing true example_manager) [] Hnone Hclosing Hstays).
Defined.

(** X18. Connect attempts, whatever their number and outcome, never change
    the circuit breaker (its flag, its time stamp, its two constants). A
    flag set by a recent disconnect therefore stays set after a successful
    connect, until the next disconnect, and every sleep before an attempt
    is then at least the sleep constant. *)
Theorem attempts_keep_circuit_breaker (envs : list connect_environment)
    (st : manager_state) :
  let m' := fst (fst (connect_attempts envs st)) in
  _connection_lost_sleep_before_reconnect m'
  = _connection_lost_sleep_before_reconnect (fst st)
  /\ _connection_lost_last_time m' = _connection_lost_last_time (fst st)
  /\ connection_lost_back_off_threshold m' = connection_lost_back_off_threshold (fst st)
  /\ connection_lost_back_off_sleep_sec m' = connection_lost_back_off_sleep_sec (fst st)
  /\ (_connection_lost_sleep_before_reconnect (fst st) = true ->
      connection_lost_back_off_sleep_sec (fst st) <= _get_back_off_time m').
Proof.
  cbn zeta. destruct (connect_attempts_frame envs st) as (c & b & closing & Hframe).
  rewrite get_back_off_time_max, Hframe. cbn.
  repeat split; try reflexivity.
  intros ->. lia.
Qed.

(** ** Sequences of disconnects *)

Lemma update_threshold now m :
  connection_lost_back_off_threshold (_update_connection_lost_circuit_breaker now m)
  = connection_lost_back_off_threshold m.
Proof. reflexivity. Qed.

Lemma disconnects_threshold times m :
  connection_lost_back_off_threshold (disconnects times m)
  = connection_lost_back_off_threshold m.
Proof.
  revert m. induction times as [|t rest IH]; intros m; [reflexivity|].
  cbn [disconnects fold_left]. fold (disconnects rest). by rewrite IH.
Qed.

Lemma disconnects_app times more m :
  disconnects (times ++ more) m = disconnects more (disconnects times m).
Proof. unfold disconnects. by rewrite fold_left_app. Qed.

(** X19. After any history of disconnects, the recent-disconnect flag
    depends on the last two disconnect times only: it is set exactly when
    the last one is less than the threshold after the one before. A last
    time that is not later than the one before (the clock was set back)
    counts as recent for a positive threshold; the first disconnect of a
    new manager never does. *)
Theorem disconnects_last_two (times : list datetime) (previous last : datetime)
    (m : ConnectionManager) (f : AsyncConnectionFactory) :
  let m' := disconnects (times ++ [previous; last]) m in
  _connection_lost_sleep_before_reconnect m'
  = bool_decide (last - previous
                 < connection_lost_back_off_threshold m * MICROSECONDS_PER_SECOND)
  /\ _connection_lost_last_time m' = Some last
  /\ (0 < connection_lost_back_off_threshold m -> last <= previous ->
      _connection_lost_sleep_before_reconnect m' = true)
  /\ _connection_lost_sleep_before_reconnect (disconnects [last] (initial_manager f))
     = false.
Proof.
  cbn zeta. rewrite disconnects_app.
  set (m0 := disconnects times m).
  assert (Hth : connection_lost_back_off_threshold m0
                = connection_lost_back_off_threshold m)
    by apply disconnects_threshold.
  assert (Hflag : _connection_lost_sleep_before_reconnect
                    (disconnects [previous; last] m0)
                  = bool_decide (last - previous
                       < connection_lost_back_off_threshold m
                         * MICROSECONDS_PER_SECOND)).
  { cbn. rewrite Hth.
    destruct (Z.ltb_spec (last - previous)
                (connection_lost_back_off_threshold m * MICROSECONDS_PER_SECOND)).
    - by rewrite bool_decide_eq_true_2.
    - rewrite bool_decide_eq_false_2; [done|lia]. }
  split; [exact Hflag|]. split; [reflexivity|]. split; [|reflexivity].
  intros Hpos Hback. rewrite Hflag. apply bool_decide_eq_true_2.
  unfold MICROSECONDS_PER_SECOND. lia.
Qed.

(** ** reader_async: the host and port argument *)

Section SplitFacts.

Variable sep : Ascii.ascii.

Lemma split_not_nil s : split sep s <> [].
Proof.
  destruct s as [|c rest]; cbn; [discriminate|].
  destruct (Ascii.eqb c sep); [discriminate|].
  destruct (split sep rest); discriminate.
Qed.

Lemma split_without_separator s : contains sep s = false -> split sep s = [s].
Proof.
  induction s as [|c rest IH]; cbn; [reflexivity|].
  intros H. apply orb_false_iff in H as [Hc Hrest].
  rewrite Hc, (IH Hrest). reflexivity.
Qed.

Lemma split_at_separator h s :
  contains sep h = false ->
  split sep (h +:+ String sep s) = h :: split sep s.
Proof.
  induction h as [|c rest IH].
  - intros _. change ("" +:+ String sep s) with (String sep s).
    cbn [split]. by rewrite Ascii.eqb_refl.
  - intros H. cbn [contains] in H. apply orb_false_iff in H as [Hc Hrest].
    change (String c rest +:+ String sep s) with (String c (rest +:+ String sep s)).
    cbn [split]. rewrite Hc, (IH Hrest). reflexivity.
Qed.

(** A string that splits into one piece is that piece. *)
Lemma split_in_one s p :
  split sep s = [p] -> s = p /\ contains sep p = false.
Proof.
  revert p. induction s as [|c rest IH]; intros p; cbn [split].
  - by intros [= <-].
  - destruct (Ascii.eqb c sep) eqn:Hc.
    + intros [= _ Hrest]. by apply split_not_nil in Hrest.
    + destruct (split sep rest) as [|first others] eqn:Hsplit.
      * by apply split_not_nil in Hsplit.
      * intros [= <- ->]. destruct (IH first eq_refl) as [-> Hfirst].
        split; [reflexivity|]. cbn [contains]. by rewrite Hc, Hfirst.
Qed.

(** A string that splits in two is its two pieces around one separator. *)
Lemma split_in_two s h p :
  split sep s = [h; p] ->
  s = h +:+ String sep p /\ contains sep h = false /\ contains sep p = false.
Proof.
  revert h. induction s as [|c rest IH]; intros h; cbn [split]; [discriminate|].
  destruct (Ascii.eqb c sep) eqn:Hc.
  - intros [= <- Hrest]. apply Ascii.eqb_eq in Hc as ->.
    destruct (split_in_one rest p Hrest) as [-> Hp].
    split; [reflexivity|]. by split.
  - destruct (split sep rest) as [|first others] eqn:Hsplit; [discriminate|].
    intros [= <- ->]. destruct (IH first eq_refl) as (-> & Hfirst & Hp).
    split; [reflexivity|]. split; [|exact Hp].
    cbn [contains]. by rewrite Hc, Hfirst.
Qed.

End SplitFacts.

(** X20. [valid_host_port] accepts exactly the strings made of a host
    without colon, one colon, and a port without colon, and returns the two
    pieces, either of which may be empty and neither of which is checked
    any further; every other string raises [ArgumentTypeError] with a
    message that quotes it. *)
Theorem valid_host_port_splits_at_the_colon (host_port : string) :
  (forall host port,
      valid_host_port host_port = inr (host, port)
      <-> host_port = host +:+ ":" +:+ port
          /\ contains colon host = false /\ contains colon port = false)
  /\ ((forall host port, valid_host_port host_port <> inr (host, port)) ->
      valid_host_port host_port
      = inl (argument_type_error
               ("Not a valid host and port: '" +:+ host_port +:+ "'."))).
Proof.
  split.
  - intros host port. unfold valid_host_port. split.
    + destruct (split colon host_port) as [|x [|y [|z more]]] eqn:Hsplit;
        try discriminate.
      intros [= <- <-]. exact (split_in_two colon host_port x y Hsplit).
    + intros (-> & Hhost & Hport).
      change (":" +:+ port) with (String colon port).
      rewrite (split_at_separator colon host port Hhost).
      by rewrite (split_without_separator colon port Hport).
  - intros Hnot. unfold valid_host_port in *.
    destruct (split colon host_port) as [|x [|y [|z more]]]; try reflexivity.
    exfalso. by apply (Hnot x y).
Qed.

Lemma valid_host_port_splits_at_the_colon_witness :
  valid_host_port "meter.local:3001" = inr ("meter.local", "3001")
  /\ valid_host_port ":" = inr ("", "")
  /\ valid_host_port "[::1]:3001"
     = inl (argument_type_error "Not a valid host and port: '[::1]:3001'.").
Proof.
  split; [|split].
  - apply (valid_host_port_splits_at_the_colon "meter.local:3001").
    repeat split; reflexivity.
  - apply (valid_host_port_splits_at_the_colon ":"). repeat split; reflexivity.
  - apply (valid_host_port_splits_at_the_colon "[::1]:3001").
    intros host port H. vm_compute in H. discriminate H.
Defined.

(** ** reader_async: the points written for a decoded frame *)

Section InfluxPointsFacts.

Context {value float_value : Type}.
Variable str : value -> string.
Variable float : value -> option float_value.
Variable utcnow_isoformat : nat -> string.

Abbreviation build := (build_point str float utcnow_isoformat).
Abbreviation collect := (collect_points str float utcnow_isoformat).
Abbreviation send := (send_frame_to_inflxudb str float utcnow_isoformat).
Abbreviation built_from := (point_of_frame str float utcnow_isoformat).

Lemma getitem_error key (frame : list (string * value)) e :
  getitem key frame = inl e -> e = KeyError key.
Proof.
  induction frame as [|[k v] rest IH]; cbn; [by intros [= <-]|].
  destruct (String.eqb k key); [discriminate|exact IH].
Qed.

Lemma build_point_built frame key clock pt :
  build frame key clock = inr pt ->
  tag_measurement pt = key /\ built_from frame clock pt.
Proof.
  unfold build_point, point_of_frame.
  destruct (getitem "meter_id" frame) as [e|v1] eqn:H1; [discriminate|].
  destruct (getitem "meter_type" frame) as [e|v2] eqn:H2; [discriminate|].
  destruct (getitem "meter_manufacturer" frame) as [e|v3] eqn:H3; [discriminate|].
  destruct (getitem "list_ver_id" frame) as [e|v4] eqn:H4; [discriminate|].
  destruct (getitem key frame) as [e|v] eqn:Hkey; [discriminate|].
  destruct (float v) as [x|] eqn:Hx; [|discriminate].
  intros [= <-]. cbn. split; [reflexivity|].
  split; [reflexivity|]. split; [reflexivity|].
  split; [by exists v1|]. split; [by exists v2|]. split; [by exists v3|].
  split; [by exists v4|]. by exists v.
Qed.

Lemma is_measured_branches key :
  is_measured key
  = if key_in key ignore_fields then false
    else key_in key regular_fields || key_in key hourly_fields.
Proof. unfold is_measured. by destruct (key_in key ignore_fields). Qed.

Lemma collect_points_built frame keys acc pts :
  collect frame keys acc = inr pts ->
  exists new,
    pts = acc ++ new
    /\ map tag_measurement new = List.filter is_measured keys
    /\ forall i pt, new !! i = Some pt -> built_from frame (length acc + i) pt.
Proof.
  revert acc. induction keys as [|key rest IH]; intros acc; cbn [collect_points].
  - intros [= <-]. exists []. split; [by rewrite app_nil_r|]. split; [done|].
    intros i pt H. by rewrite lookup_nil in H.
  - cbn [List.filter]. rewrite is_measured_branches.
    destruct (key_in key ignore_fields); [apply IH|].
    destruct (key_in key regular_fields || key_in key hourly_fields); [|apply IH].
    destruct (build frame key (length acc)) as [e|pt] eqn:Hbuild; [discriminate|].
    intros Hrest. destruct (IH _ Hrest) as (new & -> & Hkeys & Hall).
    destruct (build_point_built _ _ _ _ Hbuild) as [Hkey Hpt].
    exists (pt :: new). split; [by rewrite <- app_assoc|].
    split; [cbn; by rewrite Hkey, Hkeys|].
    intros [|i] q; cbn.
    + intros [= <-]. by rewrite Nat.add_0_r.
    + intros Hq. specialize (Hall i q Hq).
      rewrite length_app in Hall. cbn in Hall.
      by replace (length acc + S i)%nat with (length acc + 1 + i)%nat by lia.
Qed.

(** X21. When [send_frame_to_inflxudb] gets as far as writing, the list it
    writes holds one point per key of the frame that is a regular or an
    hourly field, in the order of the frame, and nothing for any other key.
    Each point is named ["elmatare"], carries the four meter tags of the
    frame, the key as its [measurement] tag, its own clock reading and the
    key's value converted by [float]. *)
Theorem written_points_follow_the_frame (frame : list (string * value))
    (pts : list (point float_value))
    (Hsent : send frame = inr pts) :
  map tag_measurement pts = List.filter is_measured (map fst frame)
  /\ forall i pt, pts !! i = Some pt -> built_from frame i pt.
Proof.
  destruct (collect_points_built frame (map fst frame) [] pts Hsent)
    as (new & -> & Hkeys & Hall).
  split; [exact Hkeys|]. intros i pt Hpt. exact (Hall i pt Hpt).
Qed.

Lemma build_point_missing_tag frame :
  (exists tag, tag ∈ tag_fields /\ getitem tag frame = inl (KeyError tag)) ->
  exists tag,
    tag ∈ tag_fields
    /\ getitem tag frame = inl (KeyError tag)
    /\ forall key clock, build frame key clock = inl (KeyError tag).
Proof.
  intros (tag & Hin & Hmissing). unfold build_point.
  destruct (getitem "meter_id" frame) as [e|v1] eqn:H1.
  { apply getitem_error in H1 as H1'. subst e.
    exists "meter_id". split; [repeat constructor|]. by split. }
  destruct (getitem "meter_type" frame) as [e|v2] eqn:H2.
  { apply getitem_error in H2 as H2'. subst e.
    exists "meter_type". split; [repeat constructor|]. by split. }
  destruct (getitem "meter_manufacturer" frame) as [e|v3] eqn:H3.
  { apply getitem_error in H3 as H3'. subst e.
    exists "meter_manufacturer". split; [repeat constructor|]. by split. }
  destruct (getitem "list_ver_id" frame) as [e|v4] eqn:H4.
  { apply getitem_error in H4 as H4'. subst e.
    exists "list_ver_id". split; [repeat constructor|]. by split. }
  exfalso. unfold tag_fields in Hin.
  repeat (apply elem_of_cons in Hin as [->|Hin]; [congruence|]).
  by apply elem_of_nil in Hin.
Qed.

Lemma collect_points_fails frame keys acc e :
  (forall key clock, build frame key clock = inl e) ->
  List.filter is_measured keys <> [] ->
  collect frame keys acc = inl e.
Proof.
  intros Hbuild. revert acc.
  induction keys as [|key rest IH]; intros acc; cbn [collect_points List.filter];
    [done|].
  rewrite is_measured_branches.
  destruct (key_in key ignore_fields); [apply IH|].
  destruct (key_in key regular_fields || key_in key hourly_fields); [|apply IH].
  intros _. by rewrite Hbuild.
Qed.

Lemma collect_points_nothing frame keys acc :
  List.filter is_measured keys = [] -> collect frame keys acc = inr acc.
Proof.
  revert acc. induction keys as [|key rest IH]; intros acc;
    cbn [collect_points List.filter]; [done|].
  rewrite is_measured_branches.
  destruct (key_in key ignore_fields); [apply IH|].
  destruct (key_in key regular_fields || key_in key hourly_fields);
    [discriminate|apply IH].
Qed.

(** X22. A frame without any regular or hourly field makes
    [send_frame_to_inflxudb] write an empty list, whatever else the frame
    holds or lacks. A frame with such a field but without one of the four
    meter tags makes it raise [KeyError] for a missing tag, before anything
    is written. *)
Theorem frames_without_fields_or_tags (frame : list (string * value)) :
  (List.filter is_measured (map fst frame) = [] -> send frame = inr [])
  /\ (List.filter is_measured (map fst frame) <> [] ->
      (exists tag, tag ∈ tag_fields /\ getitem tag frame = inl (KeyError tag)) ->
      exists tag,
        tag ∈ tag_fields
        /\ getitem tag frame = inl (KeyError tag)
        /\ send frame = inl (KeyError tag)).
Proof.
  split.
  - intros Hnone. by apply collect_points_nothing.
  - intros Hsome Hmissing.
    destruct (build_point_missing_tag frame Hmissing) as (tag & Hin & Htag & Hbuild).
    exists tag. split; [exact Hin|]. split; [exact Htag|].
    by apply collect_points_fails.
Qed.

End InfluxPointsFacts.

Lemma written_points_follow_the_frame_witness :
  exists pts,
    send_frame_to_inflxudb example_str example_float (fun _ => "2021-03-05T11:00:02")
      example_frame = inr pts
    /\ map tag_measurement pts = ["active_power_import"; "voltage_l1"]
    /\ map field_value pts = [1843; 231].
Proof.
  eexists. split; [reflexivity|].
  split; [|reflexivity].
  exact (proj1 (written_points_follow_the_frame example_str example_float
                  (fun _ => "2021-03-05T11:00:02") example_frame _ eq_refl)).
Defined.

Lemma frames_without_fields_or_tags_witness :
  send_frame_to_inflxudb example_str example_float (fun _ => "2021-03-05T11:00:02")
    example_short_frame = inl (KeyError "meter_id")
  /\ send_frame_to_inflxudb example_str example_float (fun _ => "2021-03-05T11:00:02")
       [("crc", number 0)] = inr [].
Proof.
  split.
  - destruct (frames_without_fields_or_tags example_str example_float
                (fun _ => "2021-03-05T11:00:02") example_short_frame)
      as [_ Hmissing].
    destruct Hmissing as (tag & _ & _ & Hsend).
    + discriminate.
    + exists "meter_id". split; [repeat constructor|reflexivity].
    + assert (Htag : tag = "meter_id").
      { pose proof Hsend as Hrun. vm_compute in Hrun. by injection Hrun. }
      by rewrite Htag in Hsend.
  - apply (frames_without_fields_or_tags example_str example_float
             (fun _ => "2021-03-05T11:00:02") [("crc", number 0)]).
    reflexivity.
Defined.

(** ** Probing in terms of what the readers return *)

Section ProbingByReaders.

Context {R : Type} `{!MeterReaderBase R} {A : Type}.
Variable message_received : MeterMessageBase -> list A -> list A.

Lemma call_read_result reader data (w : World R A) :
  fst (call_read reader data w) = fst (read (readers w reader) data)
  /\ readers (snd (call_read reader data w)) reader
     = snd (read (readers w reader) data).
Proof.
  unfold call_read. destruct (read (readers w reader) data) as [ms r'].
  cbn. split; [reflexivity|]. apply fn_lookup_insert.
Qed.

(** Probing a list of distinct candidates of which none returns a valid
    message: every one of them has read the chunk. *)
Lemma probe_all_invalid candidates data p (w : World R A) :
  _selected_reader p = None ->
  NoDup candidates ->
  (forall c, c ∈ candidates -> has_valid (fst (read (readers w c) data)) = false) ->
  fst (probe message_received candidates data p w) = p
  /\ queue (snd (probe message_received candidates data p w)) = queue w
  /\ (forall c, c ∈ candidates ->
      readers (snd (probe message_received candidates data p w)) c
      = snd (read (readers w c) data)).
Proof.
  intros Hnone. revert w.
  induction candidates as [|reader rest IH]; intros w Hdup Hinvalid.
  - split; [done|]. split; [done|]. intros c Hc. by apply elem_of_nil in Hc.
  - apply list.NoDup_cons in Hdup as [Hfresh Hdup].
    cbn [probe].
    destruct (call_read_result reader data w) as [Hms Hstate].
    pose proof (call_read_queue reader data w) as Hq.
    pose proof (fun c => call_read_readers_other reader data w c) as Hother.
    destruct (call_read reader data w) as [messages w1]. cbn [fst snd] in *.
    rewrite select_if_valid_has_valid, Hms.
    rewrite (Hinvalid reader) by apply list_elem_of_here.
    rewrite Hnone.
    assert (Hrest : forall c, c ∈ rest ->
                      has_valid (fst (read (readers w1 c) data)) = false).
    { intros c Hc. rewrite Hother by (intros ->; contradiction).
      apply Hinvalid. by apply list_elem_of_further. }
    destruct (IH w1 Hdup Hrest) as (Hp & Hqueue & Hstates).
    split; [exact Hp|]. split; [by rewrite Hqueue|].
    intros c Hc. apply elem_of_cons in Hc as [->|Hc].
    + rewrite (probe_readers_other message_received rest data p w1 reader Hfresh).
      exact Hstate.
    + rewrite (Hstates c Hc). rewrite Hother by (intros ->; contradiction).
      reflexivity.
Qed.

(** X23. List order decides between candidates. If the candidates before
    [reader] are distinct from each other and from [reader], none of them
    returns a valid message for the chunk and [reader] returns one, then
    [reader] is the one selected, whatever the candidates after it would
    have returned; the queue receives exactly what [message_received]
    makes of [reader]'s messages. *)
Theorem first_valid_candidate_is_selected (data : bytes) (p : SmartMeterBaseProtocol)
    (w : World R A) (before after : list nat) (reader : nat)
    (Hprobing : _selected_reader p = None)
    (Hcandidates : _reader_candidates p = before ++ reader :: after)
    (Hdistinct : NoDup (before ++ [reader]))
    (Hbefore : forall c, c ∈ before ->
                 has_valid (fst (read (readers w c) data)) = false)
    (Hreader : has_valid (fst (read (readers w reader) data)) = true) :
  let st := data_received message_received data (p, w) in
  fst st = select_reader reader p
  /\ queue (snd st)
     = delivered message_received (fst (read (readers w reader) data)) (queue w)
  /\ readers (snd st) reader = snd (read (readers w reader) data).
Proof.
  cbn zeta. rewrite (data_received_probing_run message_received data p w Hprobing).
  rewrite Hcandidates. clear Hcandidates. revert w Hbefore Hreader.
  induction before as [|c rest IH]; intros w Hbefore Hreader.
  - cbn [app probe].
    destruct (call_read_result reader data w) as [Hms Hstate].
    pose proof (call_read_queue reader data w) as Hq.
    destruct (call_read reader data w) as [messages w1]. cbn [fst snd] in *.
    rewrite select_if_valid_has_valid, Hms, Hreader. cbn.
    split; [reflexivity|]. rewrite forward_queue, forward_readers, Hq.
    by split.
  - cbn [app] in Hdistinct. apply list.NoDup_cons in Hdistinct as [Hfresh Hdistinct].
    cbn [app probe].
    destruct (call_read_result c data w) as [Hms _].
    pose proof (call_read_queue c data w) as Hq.
    pose proof (fun x => call_read_readers_other c data w x) as Hother.
    destruct (call_read c data w) as [messages w1]. cbn [fst snd] in *.
    rewrite select_if_valid_has_valid, Hms.
    rewrite (Hbefore c) by apply list_elem_of_here.
    rewrite Hprobing.
    assert (Hne : forall x, x ∈ rest ++ [reader] -> x <> c)
      by (intros x Hx ->; contradiction).
    assert (Hrest : forall x, x ∈ rest ->
                      has_valid (fst (read (readers w1 x) data)) = false).
    { intros x Hx. rewrite Hother by (apply Hne, elem_of_app; by left).
      apply Hbefore. by apply list_elem_of_further. }
    assert (Hlast : reader <> c)
      by (apply Hne, elem_of_app; right; apply list_elem_of_here).
    assert (Hreader1 : has_valid (fst (read (readers w1 reader) data)) = true).
    { rewrite Hother by exact Hlast. exact Hreader. }
    destruct (IH Hdistinct w1 Hrest Hreader1) as (Hp & Hqueue & Hstate).
    split; [exact Hp|].
    rewrite Hqueue, Hstate, Hq, !Hother by exact Hlast.
    by split.
Qed.

(** X24. When the candidates are distinct and none of them returns a valid
    message for a chunk, the protocol and its queue stay as they are and
    every candidate has taken the chunk in: its state is the one its [read]
    left, so that a frame split over several chunks can still complete. *)
Theorem probing_feeds_every_candidate (data : bytes) (p : SmartMeterBaseProtocol)
    (w : World R A)
    (Hprobing : _selected_reader p = None)
    (Hdistinct : NoDup (_reader_candidates p))
    (Hinvalid : forall c, c ∈ _reader_candidates p ->
                  has_valid (fst (read (readers w c) data)) = false) :
  let st := data_received message_received data (p, w) in
  fst st = p
  /\ queue (snd st) = queue w
  /\ forall c, c ∈ _reader_candidates p ->
       readers (snd st) c = snd (read (readers w c) data).
Proof.
  cbn zeta. rewrite (data_received_probing_run message_received data p w Hprobing).
  by apply probe_all_invalid.
Qed.

End ProbingByReaders.

Lemma first_valid_candidate_is_selected_witness :
  NoDup ([] ++ [0%nat])
  /\ has_valid (fst (read (example_readers 0%nat) example_chunk)) = true
  /\ fst after_chunk = select_reader 0 example_protocol
  /\ length (queue (snd after_chunk)) = 2%nat.
Proof.
  assert (Hdistinct : NoDup ([] ++ [0%nat])).
  { apply list.NoDup_cons. split; [apply not_elem_of_nil|constructor]. }
  assert (Hvalid : has_valid (fst (read (readers (@example_world MeterMessageBase) 0%nat)
                                     example_chunk)) = true) by reflexivity.
  assert (Hbefore : forall c, c ∈ @nil nat ->
            has_valid (fst (read (readers (@example_world MeterMessageBase) c)
                              example_chunk)) = false)
    by (intros c Hc; by apply elem_of_nil in Hc).
  split; [exact Hdistinct|]. split; [exact Hvalid|].
  destruct (first_valid_candidate_is_selected
              SmartMeterMessageProtocol.message_received example_chunk
              example_protocol example_world [] [1%nat] 0%nat
              eq_refl eq_refl Hdistinct Hbefore Hvalid) as (Hp & Hq & _).
  split; [exact Hp|].
  unfold after_chunk. rewrite Hq. reflexivity.
Defined.

Lemma probing_feeds_every_candidate_witness :
  NoDup (_reader_candidates example_protocol)
  /\ pending (readers (snd after_junk) 0%nat) = example_junk
  /\ pending (readers (snd after_junk) 1%nat) = example_junk.
Proof.
  assert (Hdistinct : NoDup (_reader_candidates example_protocol)).
  { apply list.NoDup_cons. split.
    - intros Hin. apply list_elem_of_singleton in Hin. discriminate Hin.
    - apply list.NoDup_cons. split; [apply not_elem_of_nil|constructor]. }
  assert (Hinvalid : forall c, c ∈ _reader_candidates example_protocol ->
            has_valid (fst (read (readers (@example_world MeterMessageBase) c)
                              example_junk)) = false).
  { intros c Hc. apply elem_of_cons in Hc as [->|Hc]; [reflexivity|].
    apply list_elem_of_singleton in Hc as ->. reflexivity. }
  split; [exact Hdistinct|].
  destruct (probing_feeds_every_candidate
              SmartMeterMessageProtocol.message_received example_junk
              example_protocol example_world eq_refl Hdistinct Hinvalid)
    as (_ & _ & Hstates).
  split.
  - unfold after_junk. rewrite (Hstates 0%nat) by apply list_elem_of_here.
    reflexivity.
  - unfold after_junk.
    rewrite (Hstates 1%nat)
      by (apply list_elem_of_further, list_elem_of_here).
    reflexivity.
Defined.

(** X25. A [close()] call during the sleep of a connect attempt on a
    manager without connection does not end the sleep. What the attempt
    does when the sleep is over depends on the closing flag as it is
    then. If it is still set, the attempt returns without awaiting the
    factory and without touching the back-off policy. If it is clear
    again, because [connect_loop], woken by the [close()], has returned
    meanwhile (line 372), the attempt goes on as if [close()] had not been
    called: it awaits the factory and stores the connection the factory
    returns. *)
Theorem try_connect_closed_while_sleeping (env : connect_environment)
    (m : ConnectionManager) (log : list manager_call)
    (Hnone : _connection m = None)
    (Hsleeps : 0 < _get_back_off_time m) :
  (flag_after (during_sleep env) (_is_closing m) = true ->
   _try_connect env (m, log)
   = ((set_is_closing true m, log ++ [Sleep (_get_back_off_time m)]),
      if sleep_cancelled env then inl CancelledError else inr tt))
  /\ (forall connection,
        flag_after (during_sleep env) (_is_closing m) = false ->
        sleep_cancelled env = false ->
        factory_outcome env = inr connection ->
        _try_connect env (m, log)
        = ((set_back_off (reset (back_off_connect_error m))
              (set_connection (Some connection)
                 (set_is_closing (flag_after (during_connect env) false) m)),
            log ++ [Sleep (_get_back_off_time m); FactoryCall; BackOffReset]),
           inr tt)).
Proof.
  apply Z.ltb_lt in Hsleeps. split.
  - intros Hset. unfold _try_connect. rewrite Hsleeps.
    rewrite (interfered_without_connection _ _ _ Hnone), Hset.
    by destruct (sleep_cancelled env).
  - intros connection Hclear Hkept Hfactory. unfold _try_connect.
    rewrite Hsleeps, (interfered_without_connection _ _ _ Hnone), Hclear, Hkept.
    cbn [_is_closing set_is_closing negb].
    rewrite interfered_without_connection by (by rewrite <- Hnone).
    rewrite Hfactory. cbn. by rewrite <- !app_assoc.
Qed.

Lemma try_connect_closed_while_sleeping_witness :
  _connection example_manager = None
  /\ 0 < _get_back_off_time example_manager
  /\ _try_connect example_cancelled_sleep (example_manager, [])
     = ((set_is_closing true example_manager, [Sleep 2]), inl CancelledError)
  /\ _try_connect example_closed_asleep (example_manager, [])
     = ((set_back_off (reset (back_off_connect_error example_manager))
           (set_connection (Some (example_transport, example_protocol))
              example_manager),
         [Sleep 2; FactoryCall; BackOffReset]), inr tt).
Proof.
  assert (Hnone : _connection example_manager = None) by reflexivity.
  assert (Hsleeps : 0 < _get_back_off_time example_manager)
    by (vm_compute; reflexivity).
  split; [exact Hnone|]. split; [exact Hsleeps|]. split.
  - exact (proj1 (try_connect_closed_while_sleeping example_cancelled_sleep
                    example_manager [] Hnone Hsleeps) eq_refl).
  - exact (proj2 (try_connect_closed_while_sleeping example_closed_asleep
                    example_manager [] Hnone Hsleeps)
             (example_transport, example_protocol) eq_refl eq_refl eq_refl).
Defined.
